(** * Verification of the concurrency micro-benchmarks
    (src/go/mem_bench.go, src/go/main.go, src/go/4.server.go,
    src/unnamed/part_000, src/unnamed/part_002).

    Memory readings are float64 values computed as an int64 divided by a
    power of two; they are never NaN or infinite, so they are modelled as
    rationals [Q], compared with [Qle_bool] (Go [<=]) and [Qeq_bool]
    (Go [==] on float64, used by [atomic.Value.CompareAndSwap]). *)

From stdpp Require Import base list strings relations.
From Stdlib Require Import QArith Qminmax ZArith Lia Relations PrimFloat.
From Stdlib Require Uint63.

Local Open Scope Z_scope.

(* ================================================================= *)
(** ** Go integers *)

(** Go [int] on a 64-bit platform: two's complement wrap-around. *)
Definition wrap64 (z : Z) : Z := ((z + 2 ^ 63) mod 2 ^ 64) - 2 ^ 63.

(* ================================================================= *)
(** ** getRSSMB (mem_bench.go, lines 13-29) *)

(** Result of [syscall.Getrusage(RUSAGE_SELF, &rusage)]: either the
    filled structure (only [Maxrss] is read) or an error. *)
Inductive rusage_result :=
| RusageOk (Maxrss : Z)
| RusageErr (errno : Z).

Definition getRSSMB (r : rusage_result) (GOOS : string) : Q :=
  match r with
  | RusageErr _ => 0%Q
  | RusageOk maxrss =>
      let rss := inject_Z maxrss in
      if String.eqb GOOS "darwin" then (rss / inject_Z (1024 * 1024))%Q
      else (rss / 1024)%Q
  end.

(* ================================================================= *)
(** ** PeakMemoryTracker (mem_bench.go, lines 32-81) *)

(** State of the sampling goroutine started by [Start]. *)
Inductive sampler_state :=
| NoSampler      (* no goroutine was started *)
| Sampling       (* inside the [for { select ... }] loop *)
| SamplerExited.  (* returned after receiving from [stopChan] *)

Record tracker := mkTracker {
  peakRSS : Q;                 (* atomic.Value holding a float64 *)
  stopChan_closed : bool;      (* stopChan has been closed *)
  wg_count : nat;              (* counter of the WaitGroup [wg] *)
  sampler : sampler_state
}.

(** [NewPeakMemoryTracker]: fresh open channel, [peakRSS.Store(0)]. *)
Definition NewPeakMemoryTracker : tracker :=
  mkTracker 0%Q false 0 NoSampler.

(** [Start]: [peakRSS.Store(getRSSMB())], [wg.Add(1)], spawn the sampler.
    [sample] is the reading returned by [getRSSMB()]. *)
Definition Start (sample : Q) (t : tracker) : tracker :=
  mkTracker sample (stopChan_closed t) (S (wg_count t)) Sampling.

(** The compare-and-retry loop of one tick when no other goroutine writes
    [peakRSS]: [old := Load()]; if [current <= old] break; otherwise
    [CompareAndSwap(old, current)] succeeds since the value is still [old].
    [cas_step] below gives the loop under contention. *)
Definition update_peak (current old : Q) : Q :=
  if Qle_bool current old then old else current.

(** One [case <-ticker.C] branch of the sampler, with reading [current].
    Only a running sampler ticks. *)
Definition tick (current : Q) (t : tracker) : tracker :=
  match sampler t with
  | Sampling =>
      mkTracker (update_peak current (peakRSS t)) (stopChan_closed t)
        (wg_count t) Sampling
  | _ => t
  end.

Definition ticks (samples : list Q) (t : tracker) : tracker :=
  fold_left (fun t c => tick c t) samples t.

(** Outcome of [Stop]. [StopDeadlock] is [wg.Wait()] blocking forever
    (counter positive with no goroutine left to call [Done]). *)
Inductive stop_result :=
| StopOk (t : tracker) (peak : Q)
| StopPanic (msg : string)
| StopDeadlock.

(** [Stop]: [close(stopChan)] (panics on a closed channel), then
    [wg.Wait()]: the running sampler receives from the closed channel and
    returns, its deferred [wg.Done()] decrements the counter; then
    [peakRSS.Load()]. Ticks that win the [select] race before the sampler
    sees the closed channel are ordinary ticks before [Stop]. *)
Definition Stop (t : tracker) : stop_result :=
  if stopChan_closed t then StopPanic "close of closed channel"
  else
    let t1 :=
      match sampler t with
      | Sampling => mkTracker (peakRSS t) true (pred (wg_count t)) SamplerExited
      | s => mkTracker (peakRSS t) true (wg_count t) s
      end in
    if Nat.eqb (wg_count t1) 0 then StopOk t1 (peakRSS t1) else StopDeadlock.

(** One measurement window as used by [measureMemory]: a new tracker,
    [Start] with reading [s0], one tick per later reading, [Stop]. *)
Definition window (s0 : Q) (samples : list Q) : stop_result :=
  Stop (ticks samples (Start s0 NewPeakMemoryTracker)).

(* ================================================================= *)
(** ** The compare-and-retry loop under contention (mem_bench.go, 61-69)

    Several goroutines run the inner loop of a tick on the same
    [peakRSS], each with its own reading [current]:
    [old := Load(); if current <= old break; if CAS(old, current) break].
    The comparison is goroutine-local, so it is taken together with the
    CAS in one atomic step; [Load] is a step of its own. *)

Inductive writer :=
| WLoad (current : Q)          (* at [old := t.peakRSS.Load()] *)
| WCas (current old : Q)       (* at [if current <= old] / [CompareAndSwap] *)
| WDone.                       (* left the loop *)

Record cas_state := mkCas {
  shared_peak : Q;
  writers : list writer
}.

Inductive cas_step : cas_state -> cas_state -> Prop :=
| cas_load i c p ws :
    ws !! i = Some (WLoad c) ->
    cas_step (mkCas p ws) (mkCas p (<[i := WCas c p]> ws))
| cas_break i c old p ws :
    ws !! i = Some (WCas c old) -> Qle_bool c old = true ->
    cas_step (mkCas p ws) (mkCas p (<[i := WDone]> ws))
| cas_swap_ok i c old p ws :
    ws !! i = Some (WCas c old) -> Qle_bool c old = false ->
    Qeq_bool p old = true ->
    cas_step (mkCas p ws) (mkCas c (<[i := WDone]> ws))
| cas_swap_fail i c old p ws :
    ws !! i = Some (WCas c old) -> Qle_bool c old = false ->
    Qeq_bool p old = false ->
    cas_step (mkCas p ws) (mkCas p (<[i := WLoad c]> ws)).

(** Every proposal starts at the [Load]; [p0] is the stored peak. *)
Definition cas_init (p0 : Q) (proposals : list Q) : cas_state :=
  mkCas p0 (map WLoad proposals).

Definition all_done (s : cas_state) : Prop :=
  forall i w, writers s !! i = Some w -> w = WDone.

(* ================================================================= *)
(** ** memoryIntensiveTask (mem_bench.go, lines 85-106)

    The buffer is a function from index to byte value; the task's
    observable behaviour is its trace of memory events. [make] fails with
    [makeslice: len out of range] on a negative length and on a length
    above [maxAlloc] bytes (runtime.makeslice); running out of memory below
    that bound is not modelled. [page] is [os.Getpagesize()]. *)

Inductive mem_event :=
| EAlloc (len : Z)          (* data := make([]byte, numBytes) *)
| ETouch (i v : Z)          (* data[i] = byte((int(data[i]) + 1) & 0xFF) *)
| ESleep (ms : Z)           (* time.Sleep *)
| ERead (i : Z)             (* int64(data[i]) *)
| ERelease (len : Z).       (* return: the buffer becomes unreachable *)

Inductive task_outcome :=
| TaskOk (total : Z) (trace : list mem_event)
| TaskPanic (msg : string) (trace : list mem_event)
| TaskHang (trace : list mem_event).   (* a loop that never ends *)

Definition upd (data : Z -> Z) (i v : Z) : Z -> Z :=
  fun j => if Z.eqb j i then v else data j.

(** Bounds-checked [data[i]] on a slice of length [len]. *)
Definition index (data : Z -> Z) (len i : Z) : option Z :=
  if (0 <=? i) && (i <? len) then Some (data i) else None.

Inductive touch_result :=
| TouchDone (data : Z -> Z) (trace : list mem_event)
| TouchPanic (trace : list mem_event)
| TouchHang (trace : list mem_event).

(** [for i := 0; i < len(data); i += page { data[i] = ... }]; the fuel
    bounds the number of loop tests, running out of it is non-termination.
    With [0 < page], [len / page + 2] tests always suffice. *)
Fixpoint touch_loop (fuel : nat) (page len i : Z) (data : Z -> Z)
    (tr : list mem_event) : touch_result :=
  match fuel with
  | O => TouchHang tr
  | S f =>
      if i <? len then
        match index data len i with
        | Some d =>
            let v := Z.land (d + 1) 255 in
            touch_loop f page len (wrap64 (i + page)) (upd data i v)
              (tr ++ [ETouch i v])
        | None => TouchPanic tr
        end
      else TouchDone data tr
  end.

Definition index_panic : string := "index out of range".

(** The largest allocation [makeslice] accepts on a 64-bit platform
    ([maxAlloc = 1 << heapAddrBits], with 48 address bits). *)
Definition maxAlloc : Z := 2 ^ 48.

Definition memoryIntensiveTask (sizeMB page : Z) : task_outcome :=
  let numBytes := wrap64 (wrap64 (sizeMB * 1024) * 1024) in
  if (numBytes <? 0) || (maxAlloc <? numBytes)
  then TaskPanic "makeslice: len out of range" []
  else
    let data0 := fun _ : Z => 0 in
    match touch_loop (Z.to_nat (numBytes / page) + 2) page numBytes 0 data0
            [EAlloc numBytes] with
    | TouchHang tr => TaskHang tr
    | TouchPanic tr => TaskPanic index_panic tr
    | TouchDone data tr =>
        let tr := tr ++ [ESleep 200] in
        match index data numBytes 0 with
        | None => TaskPanic index_panic tr
        | Some b0 =>
            let tr := tr ++ [ERead 0] in
            match index data numBytes (Z.quot numBytes 2) with
            | None => TaskPanic index_panic tr
            | Some b1 =>
                let tr := tr ++ [ERead (Z.quot numBytes 2)] in
                match index data numBytes (numBytes - 1) with
                | None => TaskPanic index_panic tr
                | Some b2 =>
                    TaskOk (b0 + b1 + b2)
                      (tr ++ [ERead (numBytes - 1); ERelease numBytes])
                end
            end
        end
    end.

(* ================================================================= *)
(** ** runSingleThreaded (mem_bench.go, lines 108-113) *)

Inductive run_event :=
| EUnit (trace : list mem_event)   (* one call of memoryIntensiveTask *)
| EGC.                             (* runtime.GC() *)

Inductive run_outcome :=
| RunDone (trace : list run_event)
| RunPanic (msg : string) (trace : list run_event)
| RunHang (trace : list run_event).

Fixpoint run_seq (k : nat) (sizeMB page : Z) (tr : list run_event)
    : run_outcome :=
  match k with
  | O => RunDone tr
  | S k' =>
      match memoryIntensiveTask sizeMB page with
      | TaskOk _ t => run_seq k' sizeMB page (tr ++ [EUnit t; EGC])
      | TaskPanic msg t => RunPanic msg (tr ++ [EUnit t])
      | TaskHang t => RunHang (tr ++ [EUnit t])
      end
  end.

(** [for i := 0; i < numTasks; i++]: [max numTasks 0] iterations. *)
Definition runSingleThreaded (numTasks sizeMB page : Z) : run_outcome :=
  run_seq (Z.to_nat numTasks) sizeMB page [].

(* ================================================================= *)
(** ** runMultiThreaded (mem_bench.go, lines 115-126)

    Interleaving semantics of the main goroutine and of the goroutines it
    spawns. A goroutine whose unit panics first runs its deferred
    [wg.Done()]; the program dies afterwards, and other goroutines may run
    in between. Once the program has died nothing runs. *)

Inductive mt_pc :=
| MT_Add                    (* wg.Add(numTasks) *)
| MT_Spawn (i : Z)          (* loop head, [i] goroutines spawned *)
| MT_Wait                   (* wg.Wait() *)
| MT_Ret                    (* returned to the caller *)
| MT_Panic (msg : string).  (* the program died *)

Inductive goroutine :=
| G_Run                    (* about to call memoryIntensiveTask(sizeMB) *)
| G_Ret                    (* the task returned; deferred wg.Done() pending *)
| G_Exit                   (* wg.Done() called, goroutine finished *)
| G_Panicking (msg : string) (* the task panicked; deferred wg.Done() pending *)
| G_Dying (msg : string).  (* wg.Done() called while panicking; the panic
                              is about to end the program *)

Record mt_state := mkMT {
  mt_pc_of : mt_pc;
  mt_wg : Z;                 (* WaitGroup counter *)
  mt_gs : list goroutine;    (* spawned goroutines, in spawn order *)
  units_done : nat           (* calls of memoryIntensiveTask that returned *)
}.

Definition mt_alive (pc : mt_pc) : bool :=
  match pc with MT_Panic _ => false | _ => true end.

Section RunMultiThreaded.
Variables numTasks sizeMB page : Z.

Inductive mt_step : mt_state -> mt_state -> Prop :=
| mt_add_ok wg gs u :
    0 <= wg + numTasks ->
    mt_step (mkMT MT_Add wg gs u) (mkMT (MT_Spawn 0) (wg + numTasks) gs u)
| mt_add_panic wg gs u :
    wg + numTasks < 0 ->
    mt_step (mkMT MT_Add wg gs u)
      (mkMT (MT_Panic "sync: negative WaitGroup counter") wg gs u)
| mt_spawn i wg gs u :
    i < numTasks ->
    mt_step (mkMT (MT_Spawn i) wg gs u)
      (mkMT (MT_Spawn (i + 1)) wg (gs ++ [G_Run]) u)
| mt_loop_exit i wg gs u :
    numTasks <= i ->
    mt_step (mkMT (MT_Spawn i) wg gs u) (mkMT MT_Wait wg gs u)
| mt_wait wg gs u :
    wg = 0 ->
    mt_step (mkMT MT_Wait wg gs u) (mkMT MT_Ret wg gs u)
| mt_task_ok pc wg gs u j total tr :
    mt_alive pc = true -> gs !! j = Some G_Run ->
    memoryIntensiveTask sizeMB page = TaskOk total tr ->
    mt_step (mkMT pc wg gs u) (mkMT pc wg (<[j := G_Ret]> gs) (S u))
| mt_task_panic pc wg gs u j msg tr :
    mt_alive pc = true -> gs !! j = Some G_Run ->
    memoryIntensiveTask sizeMB page = TaskPanic msg tr ->
    mt_step (mkMT pc wg gs u) (mkMT pc wg (<[j := G_Panicking msg]> gs) u)
| mt_done pc wg gs u j :
    mt_alive pc = true -> gs !! j = Some G_Ret ->
    mt_step (mkMT pc wg gs u) (mkMT pc (wg - 1) (<[j := G_Exit]> gs) u)
| mt_panic_done pc wg gs u j msg :
    mt_alive pc = true -> gs !! j = Some (G_Panicking msg) ->
    mt_step (mkMT pc wg gs u) (mkMT pc (wg - 1) (<[j := G_Dying msg]> gs) u)
| mt_crash pc wg gs u j msg :
    mt_alive pc = true -> gs !! j = Some (G_Dying msg) ->
    mt_step (mkMT pc wg gs u) (mkMT (MT_Panic msg) wg gs u).
End RunMultiThreaded.

Definition mt_init : mt_state := mkMT MT_Add 0 [] 0.

(** States reachable by some interleaving of a call
    [runMultiThreaded(numTasks, sizeMB)]. *)
Definition mt_reach (numTasks sizeMB page : Z) (s : mt_state) : Prop :=
  rtc (mt_step numTasks sizeMB page) mt_init s.

(* ================================================================= *)
(** ** Fibonacci (main.go, lines 21-32; part_000, lines 18-30)

    [big.Int] values are unbounded integers. [temp.Set(a); a.Set(b);
    b.Add(temp, b)] makes the new [a] the old [b] and the new [b] the
    old [a + b]. *)

Fixpoint fib_loop (k : nat) (a b : Z) : Z :=
  match k with
  | O => a
  | S k' => fib_loop k' b (a + b)
  end.

(** [for i := 0; i < n; i++]: [max n 0] iterations. *)
Definition computeFibonacci (n : Z) : Z := fib_loop (Z.to_nat n) 0 1.

(** The Fibonacci sequence as the claim states it: F(0) = 0, F(1) = 1,
    F(n+2) = F(n+1) + F(n). *)
Fixpoint fib_spec (n : nat) : Z :=
  match n with
  | O => 0
  | S m =>
      match m with
      | O => 1
      | S k => fib_spec m + fib_spec k
      end
  end.

(* ================================================================= *)
(** ** Mandelbrot (part_002, lines 10-81)

    float64 arithmetic is Rocq's primitive binary64 arithmetic, one
    rounding per operation. A [[]byte] row is a list of byte values; an
    element of [result] is [None] while it is still a nil slice. *)

Definition SIZE : Z := 4000.
Definition MAX_ITER : nat := 50.

(** [float64(x)] for the non-negative ints used here. *)
Definition float_of_int (x : Z) : float := PrimFloat.of_uint63 (Uint63.of_Z x).

(** The inner [for i := 0; i < MAX_ITER; i++] loop: [true] when the point
    stays inside. *)
Fixpoint mb_inside (n : nat) (cr ci zr zi : float) : bool :=
  match n with
  | O => true
  | S n' =>
      let zr2 := (zr * zr)%float in
      let zi2 := (zi * zi)%float in
      if PrimFloat.ltb 4.0%float (zr2 + zi2)%float then false
      else mb_inside n' cr ci (zr2 - zi2 + cr)%float (2.0 * zr * zi + ci)%float
  end.

(** The [for x := 0; x < SIZE; x++] loop over one row. *)
Fixpoint row_loop (k : nat) (x : Z) (c1 ci : float) (row : list Z) : list Z :=
  match k with
  | O => row
  | S k' =>
      let cr := (float_of_int x * c1 - 1.5)%float in
      let row' :=
        if mb_inside MAX_ITER cr ci cr ci then
          let j := Z.to_nat (Z.quot x 8) in
          <[j := Z.lor (default 0 (row !! j)) (Z.shiftr 128 (Z.rem x 8))]> row
        else row in
      row_loop k' (x + 1) c1 ci row'
  end.

Definition computeRow (y : Z) : list Z :=
  let row := replicate (Z.to_nat (Z.quot (SIZE + 7) 8)) 0 in
  let c1 := (2.0 / float_of_int SIZE)%float in
  let ci := (float_of_int y * c1 - 1.0)%float in
  row_loop (Z.to_nat SIZE) 0 c1 ci row.

(** The test [computeRow] makes for pixel [(x, y)], with the same
    float64 expressions: [true] when the point stays inside. *)
Definition pixel_inside (x y : Z) : bool :=
  let c1 := (2.0 / float_of_int SIZE)%float in
  let ci := (float_of_int y * c1 - 1.0)%float in
  let cr := (float_of_int x * c1 - 1.5)%float in
  mb_inside MAX_ITER cr ci cr ci.

(** [for y := 0; y < size; y++ { result[y] = row_fn(y) }]. *)
Fixpoint seq_loop (row_fn : Z -> list Z) (k : nat) (y : Z)
    (result : list (option (list Z))) : list (option (list Z)) :=
  match k with
  | O => result
  | S k' => seq_loop row_fn k' (y + 1) (<[Z.to_nat y := Some (row_fn y)]> result)
  end.

Definition mb_seq (size : Z) (row_fn : Z -> list Z) : list (option (list Z)) :=
  seq_loop row_fn (Z.to_nat size) 0 (replicate (Z.to_nat size) None).

Definition mandelbrotSequential : list (option (list Z)) := mb_seq SIZE computeRow.

(** The worker pool of [mandelbrotThreaded]. *)
Inductive mb_pc :=
| MB_Spawn (w : Z)     (* spawning loop, [w] workers started *)
| MB_Send (y : Z)      (* [jobs <- y] loop *)
| MB_Close            (* close(jobs) *)
| MB_Wait             (* wg.Wait() *)
| MB_Ret.             (* return result *)

Inductive mb_worker :=
| W_Recv              (* at [for y := range jobs] *)
| W_Got (y : Z)       (* received [y], about to run [result[y] = computeRow(y)] *)
| W_Exit.             (* range loop ended, wg.Done() called *)

Record mb_state := mkMB {
  mb_pc_of : mb_pc;
  mb_jobs : list Z;          (* buffered channel contents, oldest first *)
  mb_closed : bool;
  mb_wg : Z;
  mb_ws : list mb_worker;
  mb_result : list (option (list Z))
}.

Section MandelbrotThreaded.
Variables (size workers : Z) (row_fn : Z -> list Z).

Inductive mb_step : mb_state -> mb_state -> Prop :=
| mb_spawn w q c wg ws r :
    w < workers ->
    mb_step (mkMB (MB_Spawn w) q c wg ws r)
      (mkMB (MB_Spawn (w + 1)) q c (wg + 1) (ws ++ [W_Recv]) r)
| mb_spawn_exit w q c wg ws r :
    workers <= w ->
    mb_step (mkMB (MB_Spawn w) q c wg ws r) (mkMB (MB_Send 0) q c wg ws r)
| mb_send y q c wg ws r :
    y < size -> Z.of_nat (length q) < size ->
    mb_step (mkMB (MB_Send y) q c wg ws r)
      (mkMB (MB_Send (y + 1)) (q ++ [y]) c wg ws r)
| mb_send_exit y q c wg ws r :
    size <= y ->
    mb_step (mkMB (MB_Send y) q c wg ws r) (mkMB MB_Close q c wg ws r)
| mb_close q wg ws r :
    mb_step (mkMB MB_Close q false wg ws r) (mkMB MB_Wait q true wg ws r)
| mb_wait q c wg ws r :
    wg = 0 ->
    mb_step (mkMB MB_Wait q c wg ws r) (mkMB MB_Ret q c wg ws r)
| mb_recv pc j y q c wg ws r :
    ws !! j = Some W_Recv ->
    mb_step (mkMB pc (y :: q) c wg ws r)
      (mkMB pc q c wg (<[j := W_Got y]> ws) r)
| mb_recv_closed pc j wg ws r :
    ws !! j = Some W_Recv ->
    mb_step (mkMB pc [] true wg ws r)
      (mkMB pc [] true (wg - 1) (<[j := W_Exit]> ws) r)
| mb_write pc j y q c wg ws r :
    ws !! j = Some (W_Got y) ->
    mb_step (mkMB pc q c wg ws r)
      (mkMB pc q c wg (<[j := W_Recv]> ws) (<[Z.to_nat y := Some (row_fn y)]> r)).
End MandelbrotThreaded.

(** [result := make([][]byte, size)], no worker, empty open channel. *)
Definition mb_init (size : Z) : mb_state :=
  mkMB (MB_Spawn 0) [] false 0 [] (replicate (Z.to_nat size) None).

(** [mandelbrotThreaded] returns [mb_result s] in every reachable [s]
    at [MB_Ret]; [workers] is [runtime.GOMAXPROCS(0)]. *)
Definition mandelbrotThreaded_returns (workers : Z) (s : mb_state) : Prop :=
  rtc (mb_step SIZE workers computeRow) (mb_init SIZE) s /\ mb_pc_of s = MB_Ret.

(* ================================================================= *)
(** ** runLoadTest (4.server.go, lines 51-99)

    The requests and the synchronisation of the load test: the warm-up
    loop of 10 requests, [work := make(chan struct{}, numRequests)] filled
    with [numRequests] tokens and closed, then [concurrency] workers that
    each run [for range work { makeRequest(client, url) }] and
    [wg.Done()]. [makeRequest]'s result is discarded, so a request is one
    step that adds one to [lt_reqs]; the timing and the printing after
    [wg.Wait()] are not modelled. *)
Inductive lt_pc :=
| LT_Warm (i : Z)      (* warm-up loop, [i] requests made *)
| LT_Fill (i : Z)      (* [work <- struct{}{}] loop, [i] tokens sent *)
| LT_Close             (* close(work) *)
| LT_Spawn (i : Z)     (* spawning loop, [i] workers started *)
| LT_Wait              (* wg.Wait() *)
| LT_Ret               (* past wg.Wait(): timing, printing, return *)
| LT_Panic.            (* make(chan struct{}, numRequests) panicked *)

Inductive lt_worker :=
| L_Recv              (* at [for range work] *)
| L_Got               (* received a token, about to call makeRequest *)
| L_Exit.             (* range loop ended, wg.Done() called *)

Record lt_state := mkLT {
  lt_pc_of : lt_pc;
  lt_buf : Z;                (* tokens in the buffered channel [work] *)
  lt_closed : bool;
  lt_wg : Z;
  lt_ws : list lt_worker;
  lt_reqs : Z                (* calls of makeRequest so far *)
}.

Section RunLoadTest.
Variables (numRequests concurrency : Z).

Inductive lt_step : lt_state -> lt_state -> Prop :=
| lt_warm i b c wg ws n :
    i < 10 ->
    lt_step (mkLT (LT_Warm i) b c wg ws n) (mkLT (LT_Warm (i + 1)) b c wg ws (n + 1))
| lt_make i b c wg ws n :
    10 <= i -> 0 <= numRequests ->
    lt_step (mkLT (LT_Warm i) b c wg ws n) (mkLT (LT_Fill 0) b c wg ws n)
| lt_make_panic i b c wg ws n :
    10 <= i -> numRequests < 0 ->
    lt_step (mkLT (LT_Warm i) b c wg ws n) (mkLT LT_Panic b c wg ws n)
| lt_fill i b c wg ws n :
    i < numRequests -> b < numRequests ->
    lt_step (mkLT (LT_Fill i) b c wg ws n) (mkLT (LT_Fill (i + 1)) (b + 1) c wg ws n)
| lt_fill_exit i b c wg ws n :
    numRequests <= i ->
    lt_step (mkLT (LT_Fill i) b c wg ws n) (mkLT LT_Close b c wg ws n)
| lt_close b wg ws n :
    lt_step (mkLT LT_Close b false wg ws n) (mkLT (LT_Spawn 0) b true wg ws n)
| lt_spawn i b c wg ws n :
    i < concurrency ->
    lt_step (mkLT (LT_Spawn i) b c wg ws n)
      (mkLT (LT_Spawn (i + 1)) b c (wg + 1) (ws ++ [L_Recv]) n)
| lt_spawn_exit i b c wg ws n :
    concurrency <= i ->
    lt_step (mkLT (LT_Spawn i) b c wg ws n) (mkLT LT_Wait b c wg ws n)
| lt_wait b c wg ws n :
    wg = 0 ->
    lt_step (mkLT LT_Wait b c wg ws n) (mkLT LT_Ret b c wg ws n)
| lt_recv pc j b c wg ws n :
    ws !! j = Some L_Recv -> 0 < b ->
    lt_step (mkLT pc b c wg ws n) (mkLT pc (b - 1) c wg (<[j := L_Got]> ws) n)
| lt_recv_closed pc j wg ws n :
    ws !! j = Some L_Recv ->
    lt_step (mkLT pc 0 true wg ws n) (mkLT pc 0 true (wg - 1) (<[j := L_Exit]> ws) n)
| lt_request pc j b c wg ws n :
    ws !! j = Some L_Got ->
    lt_step (mkLT pc b c wg ws n) (mkLT pc b c wg (<[j := L_Recv]> ws) (n + 1)).
End RunLoadTest.

(** No request made, no channel, no worker. *)
Definition lt_init : lt_state := mkLT (LT_Warm 0) 0 false 0 [] 0.

(* ================================================================= *)
(** * Proofs *)

(* ----------------------------------------------------------------- *)
(** ** The monotonic-maximum rule and the tracker *)

Lemma update_peak_cases (c old : Q) :
  update_peak c old = old \/ ((old < c)%Q /\ update_peak c old = c).
Proof.
  unfold update_peak. destruct (Qle_bool c old) eqn:E; [by left|].
  right. split; [|done]. apply Qnot_le_lt. intros H.
  apply Qle_bool_iff in H. congruence.
Qed.

Lemma update_peak_ge_old (c old : Q) : (old <= update_peak c old)%Q.
Proof.
  destruct (update_peak_cases c old) as [-> | [Hlt ->]];
    [apply Qle_refl | by apply Qlt_le_weak].
Qed.

Lemma update_peak_ge_new (c old : Q) : (c <= update_peak c old)%Q.
Proof.
  unfold update_peak. destruct (Qle_bool c old) eqn:E.
  - by apply Qle_bool_iff.
  - apply Qle_refl.
Qed.

Definition fold_peak (samples : list Q) (p : Q) : Q :=
  fold_left (fun p c => update_peak c p) samples p.

Lemma ticks_sampling (samples : list Q) (t : tracker) :
  sampler t = Sampling ->
  ticks samples t =
  mkTracker (fold_peak samples (peakRSS t)) (stopChan_closed t) (wg_count t)
    Sampling.
Proof.
  revert t. induction samples as [|c l IH]; intros t Ht; simpl.
  - destruct t; simpl in *; by subst.
  - fold (ticks l (tick c t)). rewrite IH; unfold tick; rewrite Ht; done.
Qed.

Lemma fold_peak_max (samples : list Q) (p : Q) :
  (p <= fold_peak samples p)%Q /\
  (forall c, In c samples -> (c <= fold_peak samples p)%Q) /\
  In (fold_peak samples p) (p :: samples).
Proof.
  revert p. induction samples as [|c l IH]; intros p; simpl.
  - split; [apply Qle_refl|]. split; [done|]. by left.
  - change (fold_peak (c :: l) p) with (fold_peak l (update_peak c p)).
    destruct (IH (update_peak c p)) as (H1 & H2 & H3). split; [|split].
    + eapply Qle_trans; [apply update_peak_ge_old|exact H1].
    + intros c' [<- | Hin]; [|by apply H2].
      eapply Qle_trans; [apply update_peak_ge_new|exact H1].
    + destruct H3 as [Heq | Hin]; [|simpl; tauto].
      rewrite <- Heq.
      destruct (update_peak_cases c p) as [-> | [_ ->]];
        simpl; auto.
Qed.

Lemma window_eq (s0 : Q) (samples : list Q) :
  window s0 samples =
  StopOk (mkTracker (fold_peak samples s0) true 0 SamplerExited)
    (fold_peak samples s0).
Proof.
  unfold window. rewrite ticks_sampling by done. done.
Qed.

(* ----------------------------------------------------------------- *)
(** ** The compare-and-retry loop *)

Definition wr_ok (peak c : Q) (w : writer) : Prop :=
  match w with
  | WLoad c' => c' = c
  | WCas c' old => c' = c /\ (old <= peak)%Q
  | WDone => (c <= peak)%Q
  end.

Definition cas_inv (p0 : Q) (l : list Q) (s : cas_state) : Prop :=
  (p0 <= shared_peak s)%Q /\ In (shared_peak s) (p0 :: l) /\
  length (writers s) = length l /\
  forall i c w, l !! i = Some c -> writers s !! i = Some w ->
    wr_ok (shared_peak s) c w.

Lemma wr_ok_mono (p p' c : Q) (w : writer) :
  (p <= p')%Q -> wr_ok p c w -> wr_ok p' c w.
Proof.
  destruct w; simpl; [done| |]; intros Hp.
  - intros [? ?]; split; [done|]. by eapply Qle_trans.
  - intros ?. by eapply Qle_trans.
Qed.

Lemma lookup_map_WLoad (l : list Q) (i : nat) :
  map WLoad l !! i = WLoad <$> l !! i.
Proof. revert i. induction l; intros [|i]; simpl; auto. Qed.

Lemma cas_inv_init (p0 : Q) (l : list Q) : cas_inv p0 l (cas_init p0 l).
Proof.
  unfold cas_inv, cas_init; simpl. split; [apply Qle_refl|].
  split; [by left|]. split; [apply length_map|].
  intros i c w Hc Hw. rewrite lookup_map_WLoad, Hc in Hw.
  simpl in Hw. by injection Hw as <-.
Qed.

(** Updating one writer of a state satisfying [cas_inv]. *)
Lemma cas_inv_insert (l : list Q) (p : Q) (ws : list writer) (i : nat)
    (w' : writer) :
  (forall j c w, l !! j = Some c -> ws !! j = Some w -> wr_ok p c w) ->
  (forall c, l !! i = Some c -> wr_ok p c w') ->
  forall j c w, l !! j = Some c -> <[i := w']> ws !! j = Some w -> wr_ok p c w.
Proof.
  intros Hall Hi j c w Hc Hw. destruct (decide (i = j)) as [<- | Hne].
  - apply list_lookup_insert_Some in Hw as [(_ & <- & _) | (Hne & _)];
      [by apply Hi | done].
  - rewrite list_lookup_insert_ne in Hw by done. by eapply Hall.
Qed.

Lemma lookup_In_list (l : list Q) (i : nat) (c : Q) : l !! i = Some c -> In c l.
Proof. intros H. apply list_elem_of_In. by eapply list_elem_of_lookup_2. Qed.

Lemma cas_inv_step (p0 : Q) (l : list Q) (s s' : cas_state) :
  cas_inv p0 l s -> cas_step s s' -> cas_inv p0 l s'.
Proof.
  intros (Hp0 & Hin & Hlen & Hall) Hs.
  destruct Hs as [i c p ws Hi | i c old p ws Hi Hle
                 | i c old p ws Hi Hle Heq | i c old p ws Hi Hle Heq];
    unfold cas_inv; cbn [shared_peak writers] in *.
  - split; [done|]. split; [done|]. split; [by rewrite length_insert|].
    apply cas_inv_insert; [done|]. intros c' Hc'.
    pose proof (Hall i c' _ Hc' Hi) as E. simpl in E. subst c'.
    split; [done|apply Qle_refl].
  - split; [done|]. split; [done|]. split; [by rewrite length_insert|].
    apply cas_inv_insert; [done|]. intros c' Hc'.
    destruct (Hall i c' _ Hc' Hi) as [-> Hold]. simpl.
    apply Qle_bool_iff in Hle. by eapply Qle_trans.
  - apply Qeq_bool_iff in Heq.
    assert (Hlt : (p < c)%Q).
    { rewrite Heq. apply Qnot_le_lt. intros H. apply Qle_bool_iff in H.
      congruence. }
    split; [eapply Qle_trans; [exact Hp0|by apply Qlt_le_weak]|].
    assert (Hci : l !! i = Some c).
    { destruct (lookup_lt_is_Some_2 l i) as [c' Hc'].
      - rewrite <- Hlen. by eapply lookup_lt_Some.
      - by destruct (Hall i c' _ Hc' Hi) as [-> _]. }
    split; [right; by eapply lookup_In_list|].
    split; [by rewrite length_insert|].
    apply cas_inv_insert.
    + intros j c' w Hc' Hw. eapply wr_ok_mono; [apply Qlt_le_weak, Hlt|].
      by eapply Hall.
    + intros c' Hc'. rewrite Hci in Hc'. injection Hc' as <-. apply Qle_refl.
  - split; [done|]. split; [done|]. split; [by rewrite length_insert|].
    apply cas_inv_insert; [done|]. intros c' Hc'.
    by destruct (Hall i c' _ Hc' Hi) as [-> _].
Qed.

Lemma cas_inv_reach (p0 : Q) (l : list Q) (s : cas_state) :
  rtc cas_step (cas_init p0 l) s -> cas_inv p0 l s.
Proof.
  intros Hr. remember (cas_init p0 l) as s0 eqn:E.
  assert (H0 : cas_inv p0 l s0) by (subst; apply cas_inv_init).
  clear E. induction Hr as [s0 | s0 s1 s2 Hstep _ IH]; [done|].
  apply IH. by eapply cas_inv_step.
Qed.

(** Whatever the interleaving, once every writer has left its loop the
    stored peak is the maximum of the initial value and the proposals. *)
Lemma cas_final_is_max (p0 : Q) (l : list Q) (s : cas_state) :
  rtc cas_step (cas_init p0 l) s -> all_done s ->
  (forall c, In c (p0 :: l) -> (c <= shared_peak s)%Q) /\
  In (shared_peak s) (p0 :: l).
Proof.
  intros Hr Hd. destruct (cas_inv_reach p0 l s Hr) as (Hp0 & Hin & Hlen & Hall).
  split; [|done]. intros c [<- | Hc]; [done|].
  apply list_elem_of_In, list_elem_of_lookup_1 in Hc as [i Hi].
  destruct (lookup_lt_is_Some_2 (writers s) i) as [w Hw].
  { rewrite Hlen. by eapply lookup_lt_Some. }
  pose proof (Hall i c w Hi Hw) as Hok. rewrite (Hd i w Hw) in Hok. done.
Qed.

(** A single writer computes [update_peak]: the sequential tick of the
    tracker is the compare-and-retry loop run alone. *)
Lemma cas_single_writer (p c : Q) (s : cas_state) :
  rtc cas_step (mkCas p [WLoad c]) s ->
  s = mkCas p [WLoad c] \/ s = mkCas p [WCas c p] \/
  s = mkCas (update_peak c p) [WDone].
Proof.
  set (P := fun s : cas_state => s = mkCas p [WLoad c] \/
    s = mkCas p [WCas c p] \/ s = mkCas (update_peak c p) [WDone]).
  enough (Hgen : forall s0, rtc cas_step s0 s -> P s0 -> P s).
  { intros Hr. apply (Hgen _ Hr). by left. }
  induction 1 as [s0 | s0 s1 s2 Hstep _ IH]; intros H0; [done|].
  apply IH. destruct H0 as [-> | [-> | ->]]; inversion Hstep; subst;
    match goal with H : [_] !! ?i = Some _ |- _ =>
      destruct i as [|[]]; simpl in H; try discriminate; injection H as ?; subst
    end; unfold P; simpl.
  - by right; left.
  - right; right. unfold update_peak.
    match goal with H : Qle_bool _ _ = true |- _ => by rewrite H end.
  - right; right. unfold update_peak.
    match goal with H : Qle_bool _ _ = false |- _ => by rewrite H end.
  - exfalso. match goal with H : Qeq_bool ?x ?x = false |- _ =>
      assert (Qeq_bool x x = true) by (apply Qeq_bool_iff; reflexivity) end.
    congruence.
Qed.

(* ----------------------------------------------------------------- *)
(** ** Fibonacci *)

Lemma fib_loop_shift (k n : nat) :
  fib_loop k (fib_spec n) (fib_spec (S n)) = fib_spec (k + n).
Proof.
  revert n. induction k as [|k IH]; intros n; [done|].
  cbn [fib_loop]. replace (fib_spec n + fib_spec (S n)) with (fib_spec (S (S n)))
    by (cbn [fib_spec]; lia).
  rewrite IH. f_equal. lia.
Qed.

(* ----------------------------------------------------------------- *)
(** ** memoryIntensiveTask *)

Lemma wrap64_small (z : Z) : - 2 ^ 63 <= z < 2 ^ 63 -> wrap64 z = z.
Proof.
  intros H. unfold wrap64. rewrite Z.mod_small; lia.
Qed.

Lemma numBytes_small (sizeMB : Z) :
  - 2 ^ 43 <= sizeMB < 2 ^ 43 ->
  wrap64 (wrap64 (sizeMB * 1024) * 1024) = sizeMB * 1024 * 1024.
Proof.
  intros H. rewrite (wrap64_small (sizeMB * 1024)) by lia.
  apply wrap64_small. lia.
Qed.

Lemma index_in (data : Z -> Z) (len i : Z) :
  0 <= i < len -> index data len i = Some (data i).
Proof.
  intros H. unfold index.
  replace ((0 <=? i) && (i <? len)) with true; [done|].
  symmetry. apply andb_true_intro. split; [apply Z.leb_le | apply Z.ltb_lt]; lia.
Qed.

Lemma index_out (data : Z -> Z) (len i : Z) :
  ~ (0 <= i < len) -> index data len i = None.
Proof.
  intros H. unfold index.
  destruct (0 <=? i) eqn:E1, (i <? len) eqn:E2; simpl; try done.
  apply Z.leb_le in E1. apply Z.ltb_lt in E2. lia.
Qed.

(** The touch loop, started at [i] on a buffer still zero from [i] on,
    runs [cnt] iterations when [i + k * page < len] exactly for [k < cnt];
    each iteration increments one zero byte. *)
Lemma touch_loop_spec (page len : Z) (cnt : nat) :
  0 < page -> len + page <= 2 ^ 63 ->
  forall (fuel : nat) (i : Z) (data : Z -> Z) (tr : list mem_event),
  0 <= i -> (cnt < fuel)%nat ->
  (forall k : nat, (k < cnt)%nat -> i + Z.of_nat k * page < len) ->
  len <= i + Z.of_nat cnt * page ->
  (forall j, i <= j -> data j = 0) ->
  exists data',
    touch_loop fuel page len i data tr =
    TouchDone data'
      (tr ++ map (fun k : nat => ETouch (i + Z.of_nat k * page) 1) (seq 0 cnt)).
Proof.
  intros Hpage Hlen. induction cnt as [|c IH];
    intros fuel i data tr Hi Hfuel Hlt Hge Hzero;
    (destruct fuel as [|fuel]; [lia|]); simpl.
  - replace (i <? len) with false by (symmetry; apply Z.ltb_ge; lia).
    exists data. by rewrite app_nil_r.
  - assert (Hi0 : i < len) by (specialize (Hlt 0%nat); lia).
    replace (i <? len) with true by (symmetry; apply Z.ltb_lt; lia).
    rewrite index_in by lia. rewrite Hzero by lia.
    change (Z.land (0 + 1) 255) with 1.
    rewrite wrap64_small by lia.
    destruct (IH fuel (i + page) (upd data i 1) (tr ++ [ETouch i 1]))
      as [data' Hd]; [lia | lia | | | |].
    + intros k Hk. specialize (Hlt (S k) ltac:(lia)). lia.
    + lia.
    + intros j Hj. unfold upd. destruct (Z.eqb_spec j i); [lia|]. apply Hzero; lia.
    + exists data'. rewrite Hd, <- app_assoc. f_equal. f_equal. simpl. f_equal.
      { f_equal. lia. }
      rewrite <- seq_shift, map_map. apply map_ext. intros k. f_equal. lia.
Qed.

(** Number of iterations of the touch loop on [n] bytes. *)
Definition touch_count (n page : Z) : nat := Z.to_nat ((n + page - 1) / page).

Definition touch_events (n page : Z) : list mem_event :=
  map (fun k : nat => ETouch (Z.of_nat k * page) 1) (seq 0 (touch_count n page)).

Lemma touch_count_bounds (n page : Z) :
  0 < page -> 0 <= n ->
  (forall k : nat, (k < touch_count n page)%nat -> Z.of_nat k * page < n) /\
  n <= Z.of_nat (touch_count n page) * page /\
  (touch_count n page < Z.to_nat (n / page) + 2)%nat.
Proof.
  intros Hp Hn. unfold touch_count.
  set (q := (n + page - 1) / page).
  assert (Hq0 : 0 <= q) by (apply Z.div_pos; lia).
  assert (H1 : page * q <= n + page - 1) by (apply Z.mul_div_le; lia).
  assert (H2 : n + page - 1 < page * (q + 1)).
  { pose proof (Z.mod_pos_bound (n + page - 1) page Hp).
    pose proof (Z.div_mod (n + page - 1) page ltac:(lia)). unfold q. nia. }
  assert (H3 : q <= n / page + 1).
  { unfold q. rewrite <- (Z.div_add n 1 page) by lia.
    apply Z.div_le_mono; lia. }
  assert (H4 : 0 <= n / page) by (apply Z.div_pos; lia).
  split; [|split].
  - intros k Hk. rewrite Nat2Z.inj_lt, Z2Nat.id in Hk by lia. nia.
  - rewrite Z2Nat.id by lia. nia.
  - clearbody q. apply Nat2Z.inj_lt. rewrite Nat2Z.inj_add, !Z2Nat.id by lia.
    simpl. lia.
Qed.

(** A unit of [sizeMB] megabytes, when [make] accepts the byte count. *)
Lemma memoryIntensiveTask_ok (sizeMB page : Z) :
  0 < sizeMB <= 2 ^ 28 -> 0 < page <= 2 ^ 20 ->
  let n := sizeMB * 1024 * 1024 in
  exists total,
    memoryIntensiveTask sizeMB page =
    TaskOk total
      ([EAlloc n] ++ touch_events n page ++
       [ESleep 200; ERead 0; ERead (Z.quot n 2); ERead (n - 1); ERelease n]).
Proof.
  intros Hs Hp n. unfold memoryIntensiveTask.
  rewrite numBytes_small by lia. fold n.
  replace ((n <? 0) || (maxAlloc <? n)) with false
    by (symmetry; apply orb_false_intro; apply Z.ltb_ge; unfold maxAlloc; lia).
  destruct (touch_count_bounds n page ltac:(lia) ltac:(lia)) as (Hlt & Hge & Hf).
  destruct (touch_loop_spec page n (touch_count n page) ltac:(lia) ltac:(lia)
              (Z.to_nat (n / page) + 2) 0 (fun _ => 0) [EAlloc n])
    as [data' Hd]; [lia | done | | | done |].
  - intros k Hk. specialize (Hlt k Hk). lia.
  - lia.
  - rewrite Hd.
    assert (Hq : 0 <= Z.quot n 2 < n).
    { rewrite Z.quot_div_nonneg by lia.
      split; [apply Z.div_pos; lia | apply Z.div_lt; lia]. }
    rewrite !index_in by lia.
    assert (Hm : map (fun k : nat => ETouch (0 + Z.of_nat k * page) 1)
                   (seq 0 (touch_count n page)) = touch_events n page).
    { apply map_ext. intros k. f_equal; lia. }
    rewrite Hm. eexists. f_equal. rewrite <- !app_assoc. reflexivity.
Qed.


(* ----------------------------------------------------------------- *)
(** ** runSingleThreaded and runMultiThreaded *)

Fixpoint cnt {A} (p : A -> bool) (l : list A) : nat :=
  match l with
  | [] => 0
  | x :: l' => (if p x then 1 else 0) + cnt p l'
  end.

Lemma cnt_app {A} (p : A -> bool) (l1 l2 : list A) :
  cnt p (l1 ++ l2) = (cnt p l1 + cnt p l2)%nat.
Proof. induction l1; simpl; lia. Qed.

Lemma cnt_insert {A} (p : A -> bool) (l : list A) (j : nat) (x y : A) :
  l !! j = Some x ->
  (cnt p (<[j := y]> l) + (if p x then 1 else 0) =
   cnt p l + (if p y then 1 else 0))%nat.
Proof.
  revert j. induction l as [|z l IH]; intros [|j] Hj; simpl in *; try done.
  - injection Hj as ->. lia.
  - specialize (IH j Hj). lia.
Qed.

Lemma cnt_le {A} (p : A -> bool) (l : list A) : (cnt p l <= length l)%nat.
Proof. induction l as [|x l IH]; simpl; [lia|]. destruct (p x); lia. Qed.

Lemma cnt_full {A} (p : A -> bool) (l : list A) :
  cnt p l = length l -> forall j x, l !! j = Some x -> p x = true.
Proof.
  induction l as [|z l IH]; intros Hc [|j] x Hj; simpl in *; try done.
  - injection Hj as <-. destruct (p z); [done|]. pose proof (cnt_le p l). lia.
  - apply (IH ltac:(destruct (p z); pose proof (cnt_le p l); lia) j x Hj).
Qed.

Lemma cnt_two {A} (p q : A -> bool) (l : list A) :
  (forall x, p x = true -> q x = false) -> (cnt p l + cnt q l <= length l)%nat.
Proof.
  intros Hpq. induction l as [|x l IH]; simpl; [lia|].
  destruct (p x) eqn:Ep; [rewrite (Hpq x Ep)|]; destruct (q x); lia.
Qed.

Lemma cnt_pos {A} (p : A -> bool) (l : list A) (j : nat) (x : A) :
  l !! j = Some x -> p x = true -> (1 <= cnt p l)%nat.
Proof.
  revert j. induction l as [|z l IH]; intros [|j] Hj Hx; simpl in *; try done.
  - injection Hj as ->. rewrite Hx. lia.
  - specialize (IH j Hj Hx). lia.
Qed.

Definition is_ret (g : goroutine) : bool :=
  match g with G_Ret => true | _ => false end.





(** With no positive task count, no goroutine is ever spawned. *)
Definition mt_idle (numTasks : Z) (s : mt_state) : Prop :=
  mt_gs s = [] /\ units_done s = 0%nat /\
  match mt_pc_of s with
  | MT_Add => mt_wg s = 0
  | MT_Spawn i => 0 <= i /\ numTasks = 0
  | MT_Wait | MT_Ret => numTasks = 0
  | MT_Panic msg =>
      numTasks < 0 /\ msg = "sync: negative WaitGroup counter" /\ mt_wg s = 0
  end.

Lemma mt_idle_reach (numTasks sizeMB page : Z) (s : mt_state) :
  numTasks <= 0 -> mt_reach numTasks sizeMB page s -> mt_idle numTasks s.
Proof.
  unfold mt_reach. intros Hn Hr.
  enough (Hgen : forall s0, rtc (mt_step numTasks sizeMB page) s0 s ->
                   mt_idle numTasks s0 -> mt_idle numTasks s).
  { apply (Hgen _ Hr). unfold mt_idle; simpl. done. }
  clear Hr. induction 1 as [s0 | s0 s1 s2 Hstep _ IH]; intros H0; [done|].
  apply IH. unfold mt_idle in *.
  destruct Hstep as [wg gs u Hle | wg gs u Hlt | i wg gs u Hi | i wg gs u Hi
                 | wg gs u Hwg | pc wg gs u j total tr Hal Hj Ht
                 | pc wg gs u j msg tr Hal Hj Ht | pc wg gs u j Hal Hj
                 | pc wg gs u j msg Hal Hj | pc wg gs u j msg Hal Hj];
    cbn [mt_pc_of mt_gs mt_wg units_done] in *;
    destruct H0 as (Hgs & Hu & Hpc); subst; try done.
  all: try (exfalso; lia); repeat split; try done; lia.
Qed.



(** The interleaving of [runMultiThreaded(0, sizeMB)]: [wg.Add(0)], the
    loop does not run, [wg.Wait()] returns at once. *)
Lemma mt_run_zero (sizeMB page : Z) : mt_reach 0 sizeMB page (mkMT MT_Ret 0 [] 0).
Proof.
  unfold mt_reach, mt_init.
  eapply rtc_l; [apply mt_add_ok; lia|].
  eapply rtc_l; [apply mt_loop_exit; lia|].
  eapply rtc_l; [apply mt_wait; done|].
  apply rtc_refl.
Qed.

Lemma cnt_lt_exists {A} (p : A -> bool) (l : list A) :
  (cnt p l < length l)%nat -> exists j x, l !! j = Some x /\ p x = false.
Proof.
  induction l as [|z l IH]; simpl; [lia|]. intros H.
  destruct (p z) eqn:E.
  - destruct IH as (j & x & Hj & Hx); [lia|]. by exists (S j), x.
  - by exists 0%nat, z.
Qed.











(* ----------------------------------------------------------------- *)
(** ** Mandelbrot: sequential loop *)

Lemma seq_loop_lookup (f : Z -> list Z) (k y0 : nat)
    (r : list (option (list Z))) (i : nat) :
  seq_loop f k (Z.of_nat y0) r !! i =
  if decide (y0 <= i < y0 + k /\ i < length r)%nat
  then Some (Some (f (Z.of_nat i))) else r !! i.
Proof.
  revert y0 r. induction k as [|k IH]; intros y0 r; simpl.
  - destruct (decide _); [lia|done].
  - replace (Z.of_nat y0 + 1) with (Z.of_nat (S y0)) by lia.
    rewrite IH, length_insert, Nat2Z.id.
    destruct (decide (S y0 <= i < S y0 + k /\ i < length r)%nat) as [H1|H1].
    + destruct (decide (y0 <= i < y0 + S k /\ i < length r)%nat); [done|lia].
    + destruct (decide (y0 = i)) as [<- | Hne].
      * destruct (decide (y0 < length r)%nat) as [Hl|Hl].
        -- rewrite list_lookup_insert_eq by done.
           destruct (decide (y0 <= y0 < y0 + S k /\ y0 < length r)%nat); [done|lia].
        -- rewrite list_insert_ge by lia.
           destruct (decide (y0 <= y0 < y0 + S k /\ y0 < length r)%nat); [lia|done].
      * rewrite list_lookup_insert_ne by done.
        destruct (decide (y0 <= i < y0 + S k /\ i < length r)%nat); [lia|done].
Qed.

Lemma seq_loop_lookup_in (f : Z -> list Z) (k y0 : nat)
    (r : list (option (list Z))) (i : nat) :
  (y0 <= i < y0 + k)%nat -> (i < length r)%nat ->
  seq_loop f k (Z.of_nat y0) r !! i = Some (Some (f (Z.of_nat i))).
Proof.
  intros H1 H2. rewrite seq_loop_lookup. destruct (decide _); [done|lia].
Qed.

(** Every row of the sequential result is [Some (row_fn y)]. *)
Lemma mb_seq_spec (size : Z) (f : Z -> list Z) :
  mb_seq size f = (fun i : nat => Some (f (Z.of_nat i))) <$> seq 0 (Z.to_nat size).
Proof.
  apply list_eq. intros i. unfold mb_seq.
  change 0 with (Z.of_nat 0). rewrite seq_loop_lookup, length_replicate.
  rewrite list_lookup_fmap.
  destruct (decide _) as [H | H].
  - rewrite lookup_seq_lt by lia. done.
  - rewrite (proj1 (lookup_replicate_None _ _ _)) by lia.
    rewrite lookup_seq_ge by lia. done.
Qed.

(* ----------------------------------------------------------------- *)
(** ** Mandelbrot: the worker pool *)

(** Rows [y] with [y < mb_sent] have been sent on [jobs]. *)
Definition mb_sent (size : Z) (pc : mb_pc) : Z :=
  match pc with
  | MB_Spawn _ => 0
  | MB_Send y => y
  | _ => size
  end.

Definition is_live (w : mb_worker) : bool :=
  match w with W_Exit => false | _ => true end.

(** Row [y] is still to be written: not yet sent, queued, or held. *)
Definition mb_pending (size : Z) (s : mb_state) (y : Z) : Prop :=
  mb_sent size (mb_pc_of s) <= y \/ In y (mb_jobs s) \/
  exists j, mb_ws s !! j = Some (W_Got y).

Definition mb_inv (size workers : Z) (f : Z -> list Z) (s : mb_state) : Prop :=
  length (mb_result s) = Z.to_nat size /\
  (forall y, 0 <= y < size ->
     mb_result s !! Z.to_nat y = Some (Some (f y)) \/ mb_pending size s y) /\
  (forall y, In y (mb_jobs s) -> 0 <= y < size) /\
  (forall j y, mb_ws s !! j = Some (W_Got y) -> 0 <= y < size) /\
  mb_wg s = Z.of_nat (cnt is_live (mb_ws s)) /\
  ((exists j, mb_ws s !! j = Some W_Exit) -> mb_closed s = true /\ mb_jobs s = []) /\
  match mb_pc_of s with
  | MB_Spawn w =>
      0 <= w <= workers /\ length (mb_ws s) = Z.to_nat w /\ mb_closed s = false
  | MB_Send y =>
      0 <= y <= size /\ length (mb_ws s) = Z.to_nat workers /\ mb_closed s = false
  | MB_Close => length (mb_ws s) = Z.to_nat workers /\ mb_closed s = false
  | MB_Wait => length (mb_ws s) = Z.to_nat workers
  | MB_Ret =>
      length (mb_ws s) = Z.to_nat workers /\
      forall j w, mb_ws s !! j = Some w -> w = W_Exit
  end.

Lemma lookup_snoc_Some {A} (l : list A) (x : A) (j : nat) (y : A) :
  (l ++ [x]) !! j = Some y -> l !! j = Some y \/ (j = length l /\ y = x).
Proof.
  intros H. apply lookup_app_Some in H as [H | [Hge H]]; [by left|].
  right. destruct (j - length l)%nat as [|k] eqn:E; simpl in H; [|done].
  injection H as <-. split; [lia|done].
Qed.

Lemma lookup_insert_Some_cases {A} (l : list A) (i j : nat) (x y : A) :
  <[i := x]> l !! j = Some y -> (i = j /\ x = y) \/ (i <> j /\ l !! j = Some y).
Proof.
  intros H. apply list_lookup_insert_Some in H as [(? & ? & _) | (? & ?)]; auto.
Qed.

Lemma In_snoc (l : list Z) (x y : Z) : In y (l ++ [x]) <-> In y l \/ y = x.
Proof. rewrite in_app_iff. simpl. intuition. Qed.

Section WorkerPool.
Variables (size workers : Z) (f : Z -> list Z).
Hypothesis Hsize : 0 <= size.
Hypothesis Hworkers : 1 <= workers.

Lemma mb_inv_init : mb_inv size workers f (mb_init size).
Proof.
  unfold mb_inv, mb_init; cbn.
  split; [apply length_replicate|].
  split; [intros y Hy; right; left; simpl; lia|].
  split; [done|]. split; [intros j y H; by rewrite lookup_nil in H|].
  split; [done|]. split; [intros [j H]; by rewrite lookup_nil in H|]. lia.
Qed.

Lemma cnt_zero {A} (p : A -> bool) (l : list A) (j : nat) (x : A) :
  cnt p l = 0%nat -> l !! j = Some x -> p x = false.
Proof.
  revert j. induction l as [|z l IH]; intros [|j] Hc Hj; simpl in *; try done.
  - injection Hj as <-. by destruct (p z).
  - apply (IH j); [destruct (p z); lia | done].
Qed.

Ltac inv_parts H :=
  destruct H as (Hr & Hrow & Hq & Hgot & Hwg & Hexit & Hpc).

Lemma mb_inv_step (s s' : mb_state) :
  mb_inv size workers f s -> mb_step size workers f s s' ->
  mb_inv size workers f s'.
Proof.
  intros Hinv Hs. unfold mb_inv in *; inv_parts Hinv.
  destruct Hs as [w q c wg ws r Hw | w q c wg ws r Hw | y q c wg ws r Hy Hcap
                 | y q c wg ws r Hy | q wg ws r | q c wg ws r Hwg0
                 | pc j y q c wg ws r Hj | pc j wg ws r Hj
                 | pc j y q c wg ws r Hj];
    unfold mb_pending in *; cbn [mb_pc_of mb_jobs mb_closed mb_wg mb_ws mb_result mb_sent] in *.
  - (* spawn a worker *)
    destruct Hpc as (Hw1 & Hlen & ->).
    split; [done|]. split.
    { intros y' Hy'. destruct (Hrow y' Hy') as [H | [H | [H | [j H]]]]; auto.
      right; right; right. exists j. by apply lookup_app_l_Some. }
    split; [done|]. split.
    { intros j y' H. apply lookup_snoc_Some in H as [H | [_ H]]; [by eapply Hgot|done]. }
    split; [rewrite cnt_app; simpl; lia|]. split.
    { intros [j H]. apply lookup_snoc_Some in H as [H | [_ H]]; [|done].
      apply Hexit. by exists j. }
    rewrite length_app, Hlen. simpl. split; [lia|]. split; [lia|done].
  - (* end of the spawning loop *)
    destruct Hpc as (Hw1 & Hlen & ->).
    assert (w = workers) as -> by lia.
    split; [done|]. split; [done|]. split; [done|]. split; [done|].
    split; [done|]. split; [done|]. split; [lia|done].
  - (* jobs <- y *)
    destruct Hpc as (Hy1 & Hlen & ->).
    split; [done|]. split.
    { intros y' Hy'. destruct (Hrow y' Hy') as [H | [H | [H | H]]]; [by left| | |].
      - destruct (decide (y' = y)) as [-> | Hne].
        + right; right; left. apply In_snoc. by right.
        + right; left. lia.
      - right; right; left. apply In_snoc. by left.
      - by right; right; right. }
    split.
    { intros y' H. apply In_snoc in H as [H | ->]; [by apply Hq | lia]. }
    split; [done|]. split; [done|]. split.
    { intros H. by destruct (Hexit H). }
    split; [lia|done].
  - (* end of the sending loop *)
    destruct Hpc as (Hy1 & Hlen & ->).
    assert (y = size) as -> by lia.
    split; [done|]. split; [done|]. split; [done|]. split; [done|].
    split; [done|]. split; [done|]. done.
  - (* close(jobs) *)
    destruct Hpc as (Hlen & _).
    split; [done|]. split; [done|]. split; [done|]. split; [done|].
    split; [done|]. split; [|done].
    intros H. by destruct (Hexit H).
  - (* wg.Wait() returns *)
    split; [done|]. split; [done|]. split; [done|]. split; [done|].
    split; [done|]. split; [done|]. split; [done|].
    intros j w Hj. subst wg.
    pose proof (cnt_zero is_live ws j w ltac:(lia) Hj). by destruct w.
  - (* a worker receives a row *)
    split; [done|]. split.
    { intros y' Hy'. destruct (Hrow y' Hy') as [H | [H | [H | [j' H]]]]; [by left|by right; left| |].
      - destruct H as [<- | H]; [|by right; right; left].
        right; right; right. exists j. apply list_lookup_insert_eq.
        by eapply lookup_lt_Some.
      - right; right; right. exists j'.
        rewrite list_lookup_insert_ne; [done|]. intros <-. congruence. }
    split; [intros y' H; apply Hq; by right|]. split.
    { intros j' y' H. apply lookup_insert_Some_cases in H as [[<- [= <-]] | [_ H]].
      - apply Hq. by left.
      - by eapply Hgot. }
    split; [pose proof (cnt_insert is_live ws j _ (W_Got y) Hj); simpl in *; lia|].
    split.
    { intros [j' H]. apply lookup_insert_Some_cases in H as [[_ [=]] | [_ H]].
      destruct (Hexit (ex_intro _ j' H)) as [_ [=]]. }
    destruct pc; rewrite ?length_insert; try done.
    destruct Hpc as [_ Hall]. by specialize (Hall j _ Hj).
  - (* the range loop ends on the closed, empty channel *)
    split; [done|]. split.
    { intros y' Hy'. destruct (Hrow y' Hy') as [H | [H | [H | [j' H]]]]; [by left|by right; left|done|].
      right; right; right. exists j'.
      rewrite list_lookup_insert_ne; [done|]. intros <-. congruence. }
    split; [done|]. split.
    { intros j' y' H. apply lookup_insert_Some_cases in H as [[_ [=]] | [_ H]].
      by eapply Hgot. }
    split; [pose proof (cnt_insert is_live ws j _ W_Exit Hj); simpl in *; lia|].
    split; [done|].
    destruct pc; rewrite ?length_insert; try done;
      try (destruct Hpc as (_ & _ & [=])); try (destruct Hpc as (_ & [=])).
    destruct Hpc as [_ Hall]. by specialize (Hall j _ Hj).
  - (* result[y] = computeRow(y) *)
    destruct (Hgot j y Hj) as [Hy0 Hy1].
    split; [by rewrite length_insert|]. split.
    { intros y' Hy'. destruct (decide (y' = y)) as [-> | Hne].
      - left. apply list_lookup_insert_eq. lia.
      - assert (Hne' : Z.to_nat y <> Z.to_nat y') by lia.
        destruct (Hrow y' Hy') as [H | [H | [H | [j' H]]]].
        + left. by rewrite list_lookup_insert_ne.
        + by right; left.
        + by right; right; left.
        + right; right; right. exists j'.
          rewrite list_lookup_insert_ne; [done|]. intros <-. congruence. }
    split; [done|]. split.
    { intros j' y' H. apply lookup_insert_Some_cases in H as [[_ [=]] | [_ H]].
      by eapply Hgot. }
    split; [pose proof (cnt_insert is_live ws j _ W_Recv Hj); simpl in *; lia|].
    split.
    { intros [j' H]. apply lookup_insert_Some_cases in H as [[_ [=]] | [_ H]].
      apply Hexit. by exists j'. }
    destruct pc; rewrite ?length_insert; try done.
    destruct Hpc as [_ Hall]. by specialize (Hall j _ Hj).
Qed.
End WorkerPool.

Section WorkerPoolRuns.
Variables (size workers : Z) (f : Z -> list Z).
Hypothesis Hsize : 0 <= size.
Hypothesis Hworkers : 1 <= workers.

Lemma mb_inv_reach (s : mb_state) :
  rtc (mb_step size workers f) (mb_init size) s -> mb_inv size workers f s.
Proof.
  intros Hr.
  enough (Hgen : forall s0, rtc (mb_step size workers f) s0 s ->
                            mb_inv size workers f s0 -> mb_inv size workers f s).
  { apply (Hgen _ Hr). by apply mb_inv_init. }
  clear Hr. induction 1 as [s0 | s0 s1 s2 Hstep _ IH]; intros Hinv; [done|].
  apply IH. by eapply mb_inv_step.
Qed.

(** Once [wg.Wait()] has returned, every row has been written. *)
Lemma mb_ret_rows (s : mb_state) :
  rtc (mb_step size workers f) (mb_init size) s -> mb_pc_of s = MB_Ret ->
  forall y, 0 <= y < size -> mb_result s !! Z.to_nat y = Some (Some (f y)).
Proof.
  intros Hr Hpc y Hy.
  destruct (mb_inv_reach s Hr) as (_ & Hrow & _ & _ & _ & Hexit & Hm).
  rewrite Hpc in Hm. destruct Hm as [Hlen Hall].
  destruct (lookup_lt_is_Some_2 (mb_ws s) 0%nat) as [w0 Hw0]; [lia|].
  pose proof (Hall _ _ Hw0) as ->.
  destruct (Hexit (ex_intro _ 0%nat Hw0)) as [_ Hq].
  destruct (Hrow y Hy) as [H | [H | [H | [j H]]]]; [done| | |].
  - unfold mb_sent in H. rewrite Hpc in H. lia.
  - by rewrite Hq in H.
  - by specialize (Hall _ _ H).
Qed.

Lemma mb_ret_result (s : mb_state) :
  rtc (mb_step size workers f) (mb_init size) s -> mb_pc_of s = MB_Ret ->
  mb_result s = mb_seq size f.
Proof.
  intros Hr Hpc.
  pose proof (mb_inv_reach s Hr) as (Hlen & _).
  apply list_eq. intros i.
  rewrite mb_seq_spec, list_lookup_fmap.
  destruct (decide (i < Z.to_nat size)%nat) as [Hi | Hi].
  - rewrite lookup_seq_lt by done. simpl.
    rewrite <- (Nat2Z.id i) at 1.
    apply mb_ret_rows; [done | done | lia].
  - rewrite lookup_seq_ge by lia. simpl.
    apply lookup_ge_None_2. lia.
Qed.
End WorkerPoolRuns.

(** One worker, each row received and written as soon as it is sent. *)
Lemma mb_one_worker_loop (size : Z) (f : Z -> list Z) (k : nat) :
  forall y r, y + Z.of_nat k = size -> 0 <= y ->
  exists r', rtc (mb_step size 1 f) (mkMB (MB_Send y) [] false 1 [W_Recv] r)
                                   (mkMB (MB_Send size) [] false 1 [W_Recv] r').
Proof.
  induction k as [|k IH]; intros y r Hk Hy.
  - exists r. assert (y = size) as -> by lia. apply rtc_refl.
  - destruct (IH (y + 1) (<[Z.to_nat y := Some (f y)]> r)) as [r' Hr']; [lia | lia |].
    exists r'.
    eapply rtc_l; [apply mb_send; simpl; lia|].
    eapply rtc_l; [apply (mb_recv _ _ _ _ 0%nat); done|].
    eapply rtc_l; [apply (mb_write _ _ _ _ 0%nat); done|].
    exact Hr'.
Qed.

Lemma mb_one_worker_run (size : Z) (f : Z -> list Z) :
  0 <= size ->
  exists r, rtc (mb_step size 1 f) (mb_init size) (mkMB MB_Ret [] true 0 [W_Exit] r).
Proof.
  intros Hs.
  destruct (mb_one_worker_loop size f (Z.to_nat size) 0 (replicate (Z.to_nat size) None))
    as [r Hr]; [lia | lia |].
  exists r. unfold mb_init.
  eapply rtc_l; [apply mb_spawn; lia|].
  eapply rtc_l; [apply mb_spawn_exit; lia|].
  eapply rtc_trans; [exact Hr|].
  eapply rtc_l; [apply mb_send_exit; lia|].
  eapply rtc_l; [apply mb_close|].
  eapply rtc_l; [apply (mb_recv_closed _ _ _ _ 0%nat); done|].
  eapply rtc_l; [apply mb_wait; done|].
  apply rtc_refl.
Qed.

(* ----------------------------------------------------------------- *)
(** ** Helpers for the stated properties *)

Lemma fold_peak_below (samples : list Q) (p : Q) :
  (forall c, In c samples -> (c <= p)%Q) -> fold_peak samples p = p.
Proof.
  revert p. induction samples as [|c l IH]; intros p H; [done|].
  change (fold_peak (c :: l) p) with (fold_peak l (update_peak c p)).
  unfold update_peak.
  replace (Qle_bool c p) with true by (symmetry; apply Qle_bool_iff, H; simpl; auto).
  apply IH. intros c' Hc'. apply H. simpl; auto.
Qed.

Lemma Q_le_80 (c : Q) : In c [10; 50; 30; 80; 20]%Q -> (c <= 80)%Q.
Proof.
  intros H. repeat destruct H as [<- | H]; try done;
    apply Qle_bool_iff; reflexivity.
Qed.

(** One interleaving of five writers on a peak of [0]: each writer runs
    its loop to the end before the next one loads. *)
Lemma cas_run_example :
  rtc cas_step (cas_init 0 [10; 50; 30; 80; 20]%Q)
    (mkCas 80 [WDone; WDone; WDone; WDone; WDone]).
Proof.
  unfold cas_init. simpl map.
  eapply rtc_l; [apply (cas_load 0%nat); reflexivity|].
  eapply rtc_l; [eapply (cas_swap_ok 0%nat); reflexivity|].
  eapply rtc_l; [apply (cas_load 1%nat); reflexivity|].
  eapply rtc_l; [eapply (cas_swap_ok 1%nat); reflexivity|].
  eapply rtc_l; [apply (cas_load 2%nat); reflexivity|].
  eapply rtc_l; [eapply (cas_break 2%nat); reflexivity|].
  eapply rtc_l; [apply (cas_load 3%nat); reflexivity|].
  eapply rtc_l; [eapply (cas_swap_ok 3%nat); reflexivity|].
  eapply rtc_l; [apply (cas_load 4%nat); reflexivity|].
  eapply rtc_l; [eapply (cas_break 4%nat); reflexivity|].
  apply rtc_refl.
Qed.

(** The events of one unit of [n] bytes that runs to the end. *)
Definition unit_trace (n page : Z) : list mem_event :=
  [EAlloc n] ++ touch_events n page ++
  [ESleep 200; ERead 0; ERead (Z.quot n 2); ERead (n - 1); ERelease n].

(* ================================================================= *)
(** * Stated properties *)

(** C1: in one Start/Stop window, [Stop] returns a peak that is at least
    every sample (the reading stored by [Start] and the reading of each
    tick) and is one of them, i.e. their maximum; the update rule keeps
    the stored peak unless the new sample is strictly greater, in which
    case the sample replaces it. *)
Theorem Stop_returns_max (s0 : Q) (samples : list Q) :
  exists t p,
    window s0 samples = StopOk t p /\
    (forall c, In c (s0 :: samples) -> (c <= p)%Q) /\
    In p (s0 :: samples) /\
    (forall c old, update_peak c old = old \/
                   ((old < c)%Q /\ update_peak c old = c)).
Proof.
  exists (mkTracker (fold_peak samples s0) true 0 SamplerExited),
         (fold_peak samples s0).
  destruct (fold_peak_max samples s0) as (H1 & H2 & H3).
  split; [apply window_eq|]. split; [|split; [done | apply update_peak_cases]].
  intros c [<- | Hc]; [done | by apply H2].
Qed.

(** C2: whatever the interleaving of five writers running the
    compare-and-retry loop with the samples 10, 50, 30, 80, 20 on a stored
    peak not above 80, once all of them have left their loop the stored
    peak is 80; so is the result of applying the update rule to the
    samples sequentially in any order. *)
Theorem cas_contention_80 (p0 : Q) (s : cas_state) :
  (p0 <= 80)%Q ->
  rtc cas_step (cas_init p0 [10; 50; 30; 80; 20]%Q) s -> all_done s ->
  (shared_peak s == 80)%Q /\
  (forall l, l ≡ₚ [10; 50; 30; 80; 20]%Q -> (fold_peak l p0 == 80)%Q).
Proof.
  intros Hp0 Hr Hd. split.
  - destruct (cas_final_is_max p0 _ s Hr Hd) as [Hge Hin].
    apply Qle_antisym.
    + destruct Hin as [<- | Hin]; [done | by apply Q_le_80].
    + apply Hge. simpl; tauto.
  - intros l Hl. destruct (fold_peak_max l p0) as (_ & H2 & H3).
    apply Qle_antisym.
    + destruct H3 as [<- | Hin]; [done|].
      apply Q_le_80. apply list_elem_of_In. rewrite <- Hl. by apply list_elem_of_In.
    + apply H2. apply list_elem_of_In. rewrite Hl. apply list_elem_of_In. simpl; tauto.
Qed.

Lemma cas_contention_80_witness :
  (0 <= 80)%Q /\
  rtc cas_step (cas_init 0 [10; 50; 30; 80; 20]%Q)
    (mkCas 80 [WDone; WDone; WDone; WDone; WDone]) /\
  all_done (mkCas 80 [WDone; WDone; WDone; WDone; WDone]) /\
  (shared_peak (mkCas 80 [WDone; WDone; WDone; WDone; WDone]) == 80)%Q.
Proof.
  assert (Hd : all_done (mkCas 80 [WDone; WDone; WDone; WDone; WDone])).
  { intros i w Hw. simpl in Hw.
    destruct i as [|[|[|[|[|i]]]]]; simpl in Hw; try discriminate;
      by injection Hw as <-. }
  split; [apply Qle_bool_iff; reflexivity|].
  split; [exact cas_run_example|]. split; [exact Hd|].
  exact (proj1 (cas_contention_80 0 _ ltac:(apply Qle_bool_iff; reflexivity)
                  cas_run_example Hd)).
Defined.

(** C3 (corrected): after a Start/Stop window a second [Stop] panics with
    [close of closed channel]; [Stop] on a new tracker that was never
    started does not fail and returns the initial peak 0. *)
Theorem Stop_misuse (s0 : Q) (samples : list Q) :
  (exists t p, window s0 samples = StopOk t p /\
               Stop t = StopPanic "close of closed channel") /\
  Stop NewPeakMemoryTracker = StopOk (mkTracker 0 true 0 NoSampler) 0%Q.
Proof.
  split; [|reflexivity].
  eexists _, _. split; [apply window_eq | reflexivity].
Qed.

(** C3 counterexample: [Stop] without a prior [Start] returns the value 0. *)
Lemma Stop_before_Start_returns :
  Stop NewPeakMemoryTracker = StopOk (mkTracker 0 true 0 NoSampler) 0%Q.
Proof. reflexivity. Qed.

(** C4: when [Getrusage] fails, [getRSSMB] returns 0 on every platform;
    the sampler takes that reading as an ordinary tick and keeps running,
    and the measurement window still ends normally. *)
Theorem getRSSMB_error_zero (errno : Z) (GOOS : string) :
  getRSSMB (RusageErr errno) GOOS = 0%Q /\
  (forall t, sampler (tick (getRSSMB (RusageErr errno) GOOS) t) = sampler t) /\
  (forall s0 samples, exists t p,
     window s0 (samples ++ [getRSSMB (RusageErr errno) GOOS]) = StopOk t p).
Proof.
  split; [done|]. split.
  - intros t. unfold tick. destruct (sampler t) eqn:E; simpl; congruence.
  - intros s0 samples. eexists _, _. apply window_eq.
Qed.









(** C8: with zero tasks [runSingleThreaded] runs no unit and returns;
    [runMultiThreaded] can return after [wg.Add(0)] and [wg.Wait()] and in
    no interleaving spawns a goroutine or runs a unit; a window whose later
    readings do not exceed the first reading (the pre-run baseline)
    returns that reading as the peak. *)
Theorem zero_batch (sizeMB page : Z) :
  runSingleThreaded 0 sizeMB page = RunDone [] /\
  mt_reach 0 sizeMB page (mkMT MT_Ret 0 [] 0) /\
  (forall s, mt_reach 0 sizeMB page s ->
     mt_gs s = [] /\ units_done s = 0%nat /\ (forall msg, mt_pc_of s <> MT_Panic msg)) /\
  (forall s0 samples, (forall c, In c samples -> (c <= s0)%Q) ->
     window s0 samples = StopOk (mkTracker s0 true 0 SamplerExited) s0).
Proof.
  split; [reflexivity|]. split; [apply mt_run_zero|]. split.
  - intros s Hr. destruct (mt_idle_reach 0 sizeMB page s ltac:(lia) Hr) as (H1 & H2 & H3).
    split; [done|]. split; [done|]. intros msg Hpc. rewrite Hpc in H3. lia.
  - intros s0 samples H. rewrite window_eq, fold_peak_below by done. done.
Qed.

(** C9: for at least one worker, whenever [mandelbrotThreaded] returns,
    its result is the result of [mandelbrotSequential]: row [y] is
    [computeRow y] for every [0 <= y < SIZE]. *)
Theorem mandelbrotThreaded_eq_sequential (workers : Z) (s : mb_state) :
  1 <= workers -> mandelbrotThreaded_returns workers s ->
  mb_result s = mandelbrotSequential /\
  (forall y, 0 <= y < SIZE -> mb_result s !! Z.to_nat y = Some (Some (computeRow y))).
Proof.
  intros Hw [Hr Hpc]. split.
  - apply (mb_ret_result SIZE workers computeRow); [done | lia | done | done].
  - apply (mb_ret_rows SIZE workers computeRow); [done | lia | done | done].
Qed.

Lemma mandelbrotThreaded_eq_sequential_witness :
  exists s, 1 <= 1 /\ mandelbrotThreaded_returns 1 s /\
            mb_result s = mandelbrotSequential.
Proof.
  destruct (mb_one_worker_run SIZE computeRow ltac:(unfold SIZE; lia)) as [r Hr].
  exists (mkMB MB_Ret [] true 0 [W_Exit] r).
  assert (Hret : mandelbrotThreaded_returns 1 (mkMB MB_Ret [] true 0 [W_Exit] r))
    by (split; [exact Hr | reflexivity]).
  split; [lia|]. split; [exact Hret|].
  exact (proj1 (mandelbrotThreaded_eq_sequential 1 _ ltac:(lia) Hret)).
Defined.

(** C10: for every n >= 0, [computeFibonacci n] is the n-th Fibonacci
    number, with F(0) = 0 and F(1) = 1, computed on unbounded integers. *)
Theorem computeFibonacci_correct (n : nat) :
  computeFibonacci (Z.of_nat n) = fib_spec n.
Proof.
  unfold computeFibonacci. rewrite Nat2Z.id.
  pose proof (fib_loop_shift n 0) as H. rewrite Nat.add_0_r in H. exact H.
Qed.

(* ================================================================= *)
(** * Further properties of the code *)

(* ----------------------------------------------------------------- *)
(** ** Helpers *)

Lemma wrap64_mod (x : Z) : wrap64 x = wrap64 (x mod 2 ^ 64).
Proof. unfold wrap64. f_equal. by rewrite Zplus_mod_idemp_l. Qed.

Lemma wrap64_mod_self (x : Z) : wrap64 x mod 2 ^ 64 = x mod 2 ^ 64.
Proof.
  unfold wrap64. rewrite Zminus_mod_idemp_l. f_equal. lia.
Qed.

(** The two wrapping multiplications of [sizeMB * 1024 * 1024]. *)
Lemma numBytes_wrap (sizeMB : Z) :
  wrap64 (wrap64 (sizeMB * 1024) * 1024) = wrap64 (sizeMB * 2 ^ 20).
Proof.
  rewrite wrap64_mod, (wrap64_mod (sizeMB * 2 ^ 20)). f_equal.
  rewrite <- (Z.mul_mod_idemp_l (wrap64 (sizeMB * 1024))) by lia.
  rewrite wrap64_mod_self, Z.mul_mod_idemp_l by lia. f_equal. lia.
Qed.

Lemma cas_step_peak_le (s s' : cas_state) :
  cas_step s s' -> (shared_peak s <= shared_peak s')%Q.
Proof.
  intros Hs. destruct Hs as [i c p ws Hi | i c old p ws Hi Hle
                            | i c old p ws Hi Hle Heq | i c old p ws Hi Hle Heq];
    simpl; try apply Qle_refl.
  apply Qeq_bool_iff in Heq. rewrite Heq.
  apply Qlt_le_weak, Qnot_le_lt. intros H. apply Qle_bool_iff in H. congruence.
Qed.

Lemma all_done_5 : all_done (mkCas 80 [WDone; WDone; WDone; WDone; WDone]).
Proof.
  intros i w Hw. simpl in Hw.
  destruct i as [|[|[|[|[|i]]]]]; simpl in Hw; try discriminate; by injection Hw as <-.
Qed.

Lemma run_seq_ok (sizeMB page total : Z) (t : list mem_event) (k : nat) :
  memoryIntensiveTask sizeMB page = TaskOk total t ->
  forall tr, run_seq k sizeMB page tr =
             RunDone (tr ++ concat (replicate k [EUnit t; EGC])).
Proof.
  intros Ht. induction k as [|k IH]; intros tr; simpl.
  - by rewrite app_nil_r.
  - rewrite Ht, IH, <- app_assoc. done.
Qed.


(* ----------------------------------------------------------------- *)
(** ** getRSSMB *)

(** For a non-negative [Maxrss], the reading is non-negative and grows
    with [Maxrss]; on darwin (where [Maxrss] is in bytes) it is 1/1024 of
    the reading elsewhere (where [Maxrss] is in kilobytes). *)
Theorem getRSSMB_monotone (m1 m2 : Z) (GOOS : string) :
  0 <= m1 <= m2 -> GOOS <> "darwin" ->
  (0 <= getRSSMB (RusageOk m1) GOOS <= getRSSMB (RusageOk m2) GOOS)%Q /\
  (0 <= getRSSMB (RusageOk m1) "darwin" <= getRSSMB (RusageOk m2) "darwin")%Q /\
  (getRSSMB (RusageOk m1) "darwin" * 1024 == getRSSMB (RusageOk m1) GOOS)%Q.
Proof.
  intros Hm Hg. unfold getRSSMB.
  replace (String.eqb GOOS "darwin") with false
    by (symmetry; by apply String.eqb_neq).
  cbn [String.eqb Ascii.eqb Bool.eqb]. unfold Qdiv.
  assert (H0 : (0 <= inject_Z m1)%Q) by (change 0%Q with (inject_Z 0); rewrite <- Zle_Qle; lia).
  assert (H12 : (inject_Z m1 <= inject_Z m2)%Q) by (rewrite <- Zle_Qle; lia).
  split; [|split].
  - split; [apply Qmult_le_0_compat; [done | discriminate]|].
    apply Qmult_le_compat_r; [done | discriminate].
  - split; [apply Qmult_le_0_compat; [done | discriminate]|].
    apply Qmult_le_compat_r; [done | discriminate].
  - change (inject_Z (1024 * 1024)) with (1024 * 1024)%Q. field.
Qed.

Lemma getRSSMB_monotone_witness :
  (0 <= 2048 <= 4096 /\ "linux" <> "darwin") /\
  (getRSSMB (RusageOk 2048) "darwin" * 1024 == getRSSMB (RusageOk 2048) "linux")%Q.
Proof.
  split; [split; [lia | discriminate]|].
  exact (proj2 (proj2 (getRSSMB_monotone 2048 4096 "linux" ltac:(lia) ltac:(discriminate)))).
Defined.

(* ----------------------------------------------------------------- *)
(** ** PeakMemoryTracker *)

(** After a Start/Stop window the sampler goroutine has returned and the
    WaitGroup is back to 0; the tracker cannot be used for a second
    window: [Start] on it succeeds, but the following [Stop] panics since
    [stopChan] is already closed. *)
Theorem tracker_single_use (s0 : Q) (samples : list Q) (s1 : Q) (samples' : list Q) :
  exists t p,
    window s0 samples = StopOk t p /\
    wg_count t = 0%nat /\ sampler t = SamplerExited /\
    Stop (ticks samples' (Start s1 t)) = StopPanic "close of closed channel".
Proof.
  eexists _, _. split; [apply window_eq|]. split; [done|]. split; [done|].
  rewrite ticks_sampling by done. reflexivity.
Qed.

(** Every step of the compare-and-retry loop, by any writer, leaves the
    stored peak unchanged or raises it: [peakRSS] never decreases. *)
Theorem cas_peak_monotone (s s' : cas_state) :
  rtc cas_step s s' -> (shared_peak s <= shared_peak s')%Q.
Proof.
  induction 1 as [s | s1 s2 s3 Hstep _ IH]; [apply Qle_refl|].
  eapply Qle_trans; [apply cas_step_peak_le, Hstep | exact IH].
Qed.

Lemma cas_peak_monotone_witness :
  rtc cas_step (cas_init 0 [10; 50; 30; 80; 20]%Q)
    (mkCas 80 [WDone; WDone; WDone; WDone; WDone]) /\
  (shared_peak (cas_init 0 [10; 50; 30; 80; 20]%Q) <=
   shared_peak (mkCas 80 [WDone; WDone; WDone; WDone; WDone]))%Q.
Proof.
  split; [exact cas_run_example|].
  exact (cas_peak_monotone _ _ cas_run_example).
Defined.

(** For any proposals and any interleaving of their writers, once every
    writer has left its loop the stored peak equals the result of applying
    the update rule to the proposals one after the other. *)
Theorem cas_interleaving_sequential (p0 : Q) (l : list Q) (s : cas_state) :
  rtc cas_step (cas_init p0 l) s -> all_done s ->
  (shared_peak s == fold_peak l p0)%Q.
Proof.
  intros Hr Hd.
  destruct (cas_final_is_max p0 l s Hr Hd) as [Hge Hin].
  destruct (fold_peak_max l p0) as (H1 & H2 & H3).
  apply Qle_antisym.
  - destruct Hin as [<- | Hin]; [done | by apply H2].
  - apply Hge. exact H3.
Qed.

Lemma cas_interleaving_sequential_witness :
  (rtc cas_step (cas_init 0 [10; 50; 30; 80; 20]%Q)
     (mkCas 80 [WDone; WDone; WDone; WDone; WDone]) /\
   all_done (mkCas 80 [WDone; WDone; WDone; WDone; WDone])) /\
  (shared_peak (mkCas 80 [WDone; WDone; WDone; WDone; WDone]) ==
   fold_peak [10; 50; 30; 80; 20]%Q 0)%Q.
Proof.
  split; [split; [exact cas_run_example | exact all_done_5]|].
  exact (cas_interleaving_sequential _ _ _ cas_run_example all_done_5).
Defined.

(* ----------------------------------------------------------------- *)
(** ** memoryIntensiveTask and the runners *)

(** The byte count [sizeMB * 1024 * 1024] wraps around: the behaviour of a
    unit depends on [sizeMB] only modulo 2^44, and sizes in [2^43, 2^44)
    give a negative length that makes [make] panic. *)
Theorem memoryIntensiveTask_size_wraps (sizeMB k page : Z) :
  memoryIntensiveTask (sizeMB + k * 2 ^ 44) page = memoryIntensiveTask sizeMB page /\
  (2 ^ 43 <= sizeMB < 2 ^ 44 ->
   memoryIntensiveTask sizeMB page = TaskPanic "makeslice: len out of range" []).
Proof.
  split.
  - unfold memoryIntensiveTask. rewrite !numBytes_wrap.
    replace ((sizeMB + k * 2 ^ 44) * 2 ^ 20) with (sizeMB * 2 ^ 20 + k * 2 ^ 64) by lia.
    rewrite (wrap64_mod (sizeMB * 2 ^ 20 + k * 2 ^ 64)), Z.mod_add, <- wrap64_mod by lia.
    done.
  - intros Hs. unfold memoryIntensiveTask. rewrite numBytes_wrap.
    assert (Hw : wrap64 (sizeMB * 2 ^ 20) = sizeMB * 2 ^ 20 - 2 ^ 64).
    { unfold wrap64.
      replace (sizeMB * 2 ^ 20 + 2 ^ 63)
        with ((sizeMB * 2 ^ 20 + 2 ^ 63 - 2 ^ 64) + 1 * 2 ^ 64) by lia.
      rewrite Z.mod_add, Z.mod_small by lia. lia. }
    rewrite Hw. replace (sizeMB * 2 ^ 20 - 2 ^ 64 <? 0) with true
      by (symmetry; apply Z.ltb_lt; lia). done.
Qed.

(** For a unit size [make] accepts, [runSingleThreaded] runs its units one after
    the other, each unit releasing its buffer before [runtime.GC()] and
    before the next allocation. *)
Theorem runSingleThreaded_units (numTasks sizeMB page : Z) :
  0 < sizeMB <= 2 ^ 28 -> 0 < page <= 2 ^ 20 ->
  runSingleThreaded numTasks sizeMB page =
  RunDone (concat (replicate (Z.to_nat numTasks)
                     [EUnit (unit_trace (sizeMB * 1024 * 1024) page); EGC])).
Proof.
  intros Hs Hp. destruct (memoryIntensiveTask_ok sizeMB page Hs Hp) as [total Ht].
  unfold runSingleThreaded. by rewrite (run_seq_ok sizeMB page total _ _ Ht).
Qed.

Lemma runSingleThreaded_units_witness :
  (0 < 1 <= 2 ^ 28 /\ 0 < 4096 <= 2 ^ 20) /\
  runSingleThreaded 2 1 4096 =
  RunDone (concat (replicate (Z.to_nat 2) [EUnit (unit_trace (1 * 1024 * 1024) 4096); EGC])).
Proof.
  split; [lia|]. exact (runSingleThreaded_units 2 1 4096 ltac:(lia) ltac:(lia)).
Defined.

(** When a unit panics, [runSingleThreaded] with at least one task dies in
    its first unit: no later unit and no [runtime.GC()] runs. *)
Theorem runSingleThreaded_panic (numTasks sizeMB page : Z) (msg : string)
    (t : list mem_event) :
  memoryIntensiveTask sizeMB page = TaskPanic msg t -> 1 <= numTasks ->
  runSingleThreaded numTasks sizeMB page = RunPanic msg [EUnit t].
Proof.
  intros Ht Hn. unfold runSingleThreaded.
  destruct (Z.to_nat numTasks) as [|k] eqn:E; [lia|]. simpl. by rewrite Ht.
Qed.

Lemma runSingleThreaded_panic_witness :
  (memoryIntensiveTask 0 4096 = TaskPanic index_panic [EAlloc 0; ESleep 200] /\ 1 <= 3) /\
  runSingleThreaded 3 0 4096 = RunPanic index_panic [EUnit [EAlloc 0; ESleep 200]].
Proof.
  assert (Ht : memoryIntensiveTask 0 4096 = TaskPanic index_panic [EAlloc 0; ESleep 200])
    by reflexivity.
  split; [split; [exact Ht | lia]|].
  exact (runSingleThreaded_panic 3 0 4096 _ _ Ht ltac:(lia)).
Defined.



(* ----------------------------------------------------------------- *)
(** ** Termination and progress of runMultiThreaded *)

Definition is_run (g : goroutine) : bool :=
  match g with G_Run => true | _ => false end.
Definition is_panicking (g : goroutine) : bool :=
  match g with G_Panicking _ => true | _ => false end.
Definition is_dying (g : goroutine) : bool :=
  match g with G_Dying _ => true | _ => false end.

(** Steps left to the main goroutine before it returns. *)
Definition mt_pcw (numTasks : Z) (pc : mt_pc) : nat :=
  match pc with
  | MT_Add => 4 * Z.to_nat numTasks + 3
  | MT_Spawn i => 4 * Z.to_nat (numTasks - i) + 2
  | MT_Wait => 1
  | MT_Ret | MT_Panic _ => 0
  end.

(** Steps left before the main goroutine returns and the goroutines
    finish; nothing is left once the program has died. *)
Definition mt_measure (numTasks : Z) (s : mt_state) : nat :=
  let gs := mt_gs s in
  if mt_alive (mt_pc_of s)
  then mt_pcw numTasks (mt_pc_of s) + 3 * cnt is_run gs + 2 * cnt is_panicking gs +
       cnt is_ret gs + cnt is_dying gs
  else 0.

(** A goroutine step [x -> y] at index [j], seen by the weights. *)
Ltac mt_weights Hj x y :=
  pose proof (cnt_insert is_run _ _ x y Hj);
  pose proof (cnt_insert is_panicking _ _ x y Hj);
  pose proof (cnt_insert is_ret _ _ x y Hj);
  pose proof (cnt_insert is_dying _ _ x y Hj);
  simpl in *; lia.

Lemma mt_measure_step (numTasks sizeMB page : Z) (s s' : mt_state) :
  mt_step numTasks sizeMB page s s' ->
  (mt_measure numTasks s' < mt_measure numTasks s)%nat.
Proof.
  intros Hs. unfold mt_measure.
  destruct Hs as [wg gs u Hle | wg gs u Hlt | i wg gs u Hi | i wg gs u Hi
                 | wg gs u Hwg | pc wg gs u j total tr Hal Hj Ht
                 | pc wg gs u j msg tr Hal Hj Ht | pc wg gs u j Hal Hj
                 | pc wg gs u j msg Hal Hj | pc wg gs u j msg Hal Hj];
    cbn [mt_pc_of mt_gs mt_alive mt_pcw] in *; rewrite ?Hal.
  - lia.
  - lia.
  - rewrite !cnt_app. simpl.
    replace (Z.to_nat (numTasks - i)) with (S (Z.to_nat (numTasks - (i + 1)))) by lia.
    lia.
  - replace (Z.to_nat (numTasks - i)) with 0%nat by lia. lia.
  - lia.
  - mt_weights Hj G_Run G_Ret.
  - mt_weights Hj G_Run (G_Panicking msg).
  - mt_weights Hj G_Ret G_Exit.
  - mt_weights Hj (G_Panicking msg) (G_Dying msg).
  - pose proof (cnt_pos is_dying _ _ _ Hj eq_refl). lia.
Qed.

Lemma mt_sn_measure (numTasks sizeMB page : Z) (m : nat) :
  forall s, (mt_measure numTasks s < m)%nat -> sn (mt_step numTasks sizeMB page) s.
Proof.
  induction m as [|m IH]; intros s Hm; [lia|].
  constructor. intros s' Hs. unfold flip in Hs. apply IH.
  pose proof (mt_measure_step _ _ _ _ _ Hs). lia.
Qed.

(** Every interleaving of [runMultiThreaded(numTasks, sizeMB)] is finite:
    there is no infinite sequence of steps from the call. *)
Theorem runMultiThreaded_terminates (numTasks sizeMB page : Z) :
  sn (mt_step numTasks sizeMB page) mt_init.
Proof.
  apply (mt_sn_measure _ _ _ (S (mt_measure numTasks mt_init))). lia.
Qed.



(* ----------------------------------------------------------------- *)
(** ** Termination and progress of mandelbrotThreaded *)

(** The buffered channel holds at most the rows sent so far, and the main
    goroutine waits only after [close(jobs)]. *)
Definition mb_aux (s : mb_state) : Prop :=
  match mb_pc_of s with
  | MB_Spawn _ => mb_jobs s = []
  | MB_Send y => Z.of_nat (length (mb_jobs s)) <= y
  | MB_Wait => mb_closed s = true
  | MB_Close | MB_Ret => True
  end.

Definition is_got (w : mb_worker) : bool :=
  match w with W_Got _ => true | _ => false end.

Definition mb_pcw (size workers : Z) (pc : mb_pc) : nat :=
  match pc with
  | MB_Spawn w => 2 * Z.to_nat (workers - w) + 3 * Z.to_nat size + 4
  | MB_Send y => 3 * Z.to_nat (size - y) + 3
  | MB_Close => 2
  | MB_Wait => 1
  | MB_Ret => 0
  end.

Definition mb_measure (size workers : Z) (s : mb_state) : nat :=
  mb_pcw size workers (mb_pc_of s) + 2 * length (mb_jobs s) +
  cnt is_got (mb_ws s) + cnt is_live (mb_ws s).

Lemma cnt_pos_exists {A} (p : A -> bool) (l : list A) :
  cnt p l <> 0%nat -> exists j x, l !! j = Some x /\ p x = true.
Proof.
  induction l as [|z l IH]; simpl; [lia|]. intros H.
  destruct (p z) eqn:E.
  - by exists 0%nat, z.
  - destruct IH as (j & x & Hj & Hx); [lia|]. by exists (S j), x.
Qed.

Section WorkerPoolProgress.
Variables (size workers : Z) (f : Z -> list Z).
Hypothesis Hsize : 0 <= size.
Hypothesis Hworkers : 1 <= workers.

Lemma mb_aux_step (s s' : mb_state) :
  mb_aux s -> mb_step size workers f s s' -> mb_aux s'.
Proof.
  intros Ha Hs. unfold mb_aux in *.
  destruct Hs as [w q c wg ws r Hw | w q c wg ws r Hw | y q c wg ws r Hy Hcap
                 | y q c wg ws r Hy | q wg ws r | q c wg ws r Hwg0
                 | pc j y q c wg ws r Hj | pc j wg ws r Hj
                 | pc j y q c wg ws r Hj];
    cbn [mb_pc_of mb_jobs mb_closed] in *; try done.
  - by rewrite Ha.
  - rewrite length_app. simpl. lia.
  - destruct pc; try done. simpl in Ha. lia.
Qed.

Lemma mb_aux_reach (s : mb_state) :
  rtc (mb_step size workers f) (mb_init size) s -> mb_aux s.
Proof.
  intros Hr.
  enough (Hgen : forall s0, rtc (mb_step size workers f) s0 s -> mb_aux s0 -> mb_aux s).
  { by apply (Hgen _ Hr). }
  clear Hr. induction 1 as [s0 | s0 s1 s2 Hstep _ IH]; intros H0; [done|].
  apply IH. by eapply mb_aux_step.
Qed.

Lemma mb_measure_step (s s' : mb_state) :
  mb_inv size workers f s -> mb_step size workers f s s' ->
  (mb_measure size workers s' < mb_measure size workers s)%nat.
Proof.
  intros Hinv Hs. destruct Hinv as (_ & _ & _ & _ & _ & _ & Hpc).
  unfold mb_measure.
  destruct Hs as [w q c wg ws r Hw | w q c wg ws r Hw | y q c wg ws r Hy Hcap
                 | y q c wg ws r Hy | q wg ws r | q c wg ws r Hwg0
                 | pc j y q c wg ws r Hj | pc j wg ws r Hj
                 | pc j y q c wg ws r Hj];
    cbn [mb_pc_of mb_jobs mb_closed mb_ws mb_pcw] in *.
  - rewrite !cnt_app. simpl.
    replace (Z.to_nat (workers - w)) with (S (Z.to_nat (workers - (w + 1)))) by lia.
    lia.
  - destruct Hpc as (H1 & _). replace (workers - w) with 0 by lia.
    replace (size - 0) with size by lia. simpl. lia.
  - rewrite length_app. simpl.
    replace (Z.to_nat (size - y)) with (S (Z.to_nat (size - (y + 1)))) by lia.
    lia.
  - destruct Hpc as (H1 & _). replace (size - y) with 0 by lia. simpl. lia.
  - lia.
  - lia.
  - pose proof (cnt_insert is_got ws j W_Recv (W_Got y) Hj).
    pose proof (cnt_insert is_live ws j W_Recv (W_Got y) Hj). simpl in *. lia.
  - pose proof (cnt_insert is_got ws j W_Recv W_Exit Hj).
    pose proof (cnt_insert is_live ws j W_Recv W_Exit Hj). simpl in *. lia.
  - pose proof (cnt_insert is_got ws j (W_Got y) W_Recv Hj).
    pose proof (cnt_insert is_live ws j (W_Got y) W_Recv Hj). simpl in *. lia.
Qed.

Lemma mb_sn_measure (m : nat) :
  forall s, mb_inv size workers f s -> (mb_measure size workers s < m)%nat ->
  sn (mb_step size workers f) s.
Proof.
  induction m as [|m IH]; intros s Hinv Hm; [lia|].
  constructor. intros s' Hs. unfold flip in Hs.
  apply IH; [by eapply mb_inv_step|].
  pose proof (mb_measure_step _ _ Hinv Hs). lia.
Qed.

Lemma mb_sn_init : sn (mb_step size workers f) (mb_init size).
Proof.
  apply (mb_sn_measure (S (mb_measure size workers (mb_init size)))); [|lia].
  by apply mb_inv_init.
Qed.

Lemma mb_progress (s : mb_state) :
  rtc (mb_step size workers f) (mb_init size) s -> mb_pc_of s <> MB_Ret ->
  exists s', mb_step size workers f s s'.
Proof.
  intros Hr Hret.
  pose proof (mb_inv_reach size workers f Hsize Hworkers s Hr)
    as (_ & _ & _ & _ & Hwg & _ & Hpc).
  pose proof (mb_aux_reach s Hr) as Ha.
  destruct s as [pc q c wg ws r]. unfold mb_aux in Ha.
  cbn [mb_pc_of mb_jobs mb_closed mb_wg mb_ws mb_result] in *.
  destruct pc as [w | y | | |]; try done.
  - destruct (Z_lt_ge_dec w workers).
    + eexists. by apply mb_spawn.
    + eexists. apply mb_spawn_exit. lia.
  - destruct (Z_lt_ge_dec y size).
    + eexists. apply mb_send; lia.
    + eexists. apply mb_send_exit. lia.
  - destruct Hpc as [_ ->]. eexists. apply mb_close.
  - destruct (Z.eq_dec wg 0) as [-> | Hwg0].
    + eexists. by apply mb_wait.
    + destruct (cnt_pos_exists is_live ws) as (j & w & Hj & Hw); [lia|].
      destruct w as [| y |]; try done.
      * destruct q as [| y q].
        -- subst c. eexists. by apply mb_recv_closed.
        -- eexists. by apply mb_recv.
      * eexists. by apply mb_write.
Qed.
End WorkerPoolProgress.

(** Every interleaving of [mandelbrotThreaded] is finite: with at least
    one worker there is no infinite sequence of steps from the call. *)
Theorem mandelbrotThreaded_terminates (workers : Z) :
  1 <= workers -> sn (mb_step SIZE workers computeRow) (mb_init SIZE).
Proof. intros Hw. apply mb_sn_init; [unfold SIZE; lia | done]. Qed.

Lemma mandelbrotThreaded_terminates_witness :
  1 <= 4 /\ sn (mb_step SIZE 4 computeRow) (mb_init SIZE).
Proof. split; [lia | exact (mandelbrotThreaded_terminates 4 ltac:(lia))]. Defined.

(** [mandelbrotThreaded] never deadlocks: until [wg.Wait()] has returned,
    some goroutine can take a step (the buffered channel never blocks a
    send, a worker blocked on [range jobs] is released by [close]). With
    termination, every interleaving ends with the function returning. *)
Theorem mandelbrotThreaded_progress (workers : Z) (s : mb_state) :
  1 <= workers -> rtc (mb_step SIZE workers computeRow) (mb_init SIZE) s ->
  mb_pc_of s <> MB_Ret -> exists s', mb_step SIZE workers computeRow s s'.
Proof. intros Hw. apply mb_progress; [unfold SIZE; lia | done]. Qed.

Lemma mandelbrotThreaded_progress_witness :
  (1 <= 4 /\ rtc (mb_step SIZE 4 computeRow) (mb_init SIZE) (mb_init SIZE) /\
   mb_pc_of (mb_init SIZE) <> MB_Ret) /\
  exists s', mb_step SIZE 4 computeRow (mb_init SIZE) s'.
Proof.
  assert (Hr : rtc (mb_step SIZE 4 computeRow) (mb_init SIZE) (mb_init SIZE))
    by apply rtc_refl.
  split; [split; [lia | split; [exact Hr | discriminate]]|].
  exact (mandelbrotThreaded_progress 4 _ ltac:(lia) Hr ltac:(discriminate)).
Defined.

(* ----------------------------------------------------------------- *)
(** ** The touch loop always ends *)

Lemma wrap64_range (z : Z) : - 2 ^ 63 <= wrap64 z < 2 ^ 63.
Proof.
  unfold wrap64. pose proof (Z.mod_pos_bound (z + 2 ^ 63) (2 ^ 64) ltac:(lia)). lia.
Qed.

(** Whether [i += page] overflows or not, the loop stops: without overflow
    it moves one page closer to [len(data)]; on overflow [i] turns
    negative and the next [data[i]] panics. *)
Lemma touch_loop_no_hang (page len : Z) :
  0 < page < 2 ^ 63 -> len < 2 ^ 63 ->
  forall (fuel : nat) (i : Z) (data : Z -> Z) (tr tr' : list mem_event),
  0 <= i -> (1 <= fuel)%nat ->
  (i < len -> (len - i) / page + 2 <= Z.of_nat fuel) ->
  touch_loop fuel page len i data tr <> TouchHang tr'.
Proof.
  intros Hp Hl fuel. induction fuel as [|fuel IH];
    intros i data tr tr' Hi Hf Hb; [lia|].
  simpl. destruct (Z.ltb_spec i len) as [Hlt | Hge]; [|discriminate].
  rewrite index_in by lia.
  destruct (Z_lt_ge_dec (i + page) (2 ^ 63)) as [Hno | Hov].
  - rewrite wrap64_small by lia. apply IH; [lia | |].
    + specialize (Hb Hlt).
      assert (0 <= (len - i) / page) by (apply Z.div_pos; lia). lia.
    + intros Hlt'. specialize (Hb Hlt).
      replace (len - (i + page)) with (len - i + (-1) * page) by lia.
      rewrite Z.div_add by lia. lia.
  - assert (Hw : wrap64 (i + page) = i + page - 2 ^ 64).
    { unfold wrap64.
      replace (i + page + 2 ^ 63) with ((i + page + 2 ^ 63 - 2 ^ 64) + 1 * 2 ^ 64) by lia.
      rewrite Z.mod_add, Z.mod_small by lia. lia. }
    rewrite Hw. specialize (Hb Hlt).
    assert (0 <= (len - i) / page) by (apply Z.div_pos; lia).
    destruct fuel as [|fuel]; [lia|]. simpl.
    replace (i + page - 2 ^ 64 <? len) with true by (symmetry; apply Z.ltb_lt; lia).
    rewrite index_out by lia. discriminate.
Qed.

(** For any page size a Go [int] can hold, a unit never runs forever,
    whatever [sizeMB]: it returns its total or panics. *)
Theorem memoryIntensiveTask_no_hang (sizeMB page : Z) (tr : list mem_event) :
  0 < page < 2 ^ 63 -> memoryIntensiveTask sizeMB page <> TaskHang tr.
Proof.
  intros Hp. unfold memoryIntensiveTask.
  set (n := wrap64 (wrap64 (sizeMB * 1024) * 1024)).
  pose proof (wrap64_range (wrap64 (sizeMB * 1024) * 1024)) as Hn. fold n in Hn.
  destruct ((n <? 0) || (maxAlloc <? n)) eqn:Ec; [discriminate|].
  apply orb_false_iff in Ec as [Hpos _]. apply Z.ltb_ge in Hpos.
  destruct (touch_loop (Z.to_nat (n / page) + 2) page n 0 (fun _ => 0) [EAlloc n])
    as [data tr1 | tr1 | tr1] eqn:E.
  - destruct (index data n 0); [|discriminate].
    destruct (index data n (Z.quot n 2)); [|discriminate].
    destruct (index data n (n - 1)); discriminate.
  - discriminate.
  - exfalso. revert E. apply touch_loop_no_hang; [lia | lia | lia | lia |].
    intros Hlt. assert (0 <= n / page) by (apply Z.div_pos; lia).
    rewrite Nat2Z.inj_add, Z2Nat.id by lia. replace (n - 0) with n by lia. lia.
Qed.

Lemma memoryIntensiveTask_no_hang_witness :
  0 < 4096 < 2 ^ 63 /\ memoryIntensiveTask (2 ^ 45 + 3) 4096 <> TaskHang [].
Proof.
  split; [lia | exact (memoryIntensiveTask_no_hang (2 ^ 45 + 3) 4096 [] ltac:(lia))].
Defined.

(* ----------------------------------------------------------------- *)
(** ** computeRow: the packed row *)

Lemma log2_lt_8 (a : Z) : 0 <= a < 256 -> Z.log2 a < 8.
Proof.
  intros Ha. destruct (Z.eq_dec a 0) as [-> | Ha0]; [reflexivity|].
  apply Z.log2_lt_pow2; [lia | simpl; lia].
Qed.

Lemma lor_byte (a b : Z) : 0 <= a < 256 -> 0 <= b < 256 -> 0 <= Z.lor a b < 256.
Proof.
  intros Ha Hb. split; [apply Z.lor_nonneg; lia|].
  destruct (Z.eq_dec (Z.lor a b) 0) as [-> | H0]; [lia|].
  assert (0 <= Z.lor a b) by (apply Z.lor_nonneg; lia).
  change 256 with (2 ^ 8). apply Z.log2_lt_pow2; [lia|].
  rewrite Z.log2_lor by lia. pose proof (log2_lt_8 a Ha). pose proof (log2_lt_8 b Hb). lia.
Qed.

Lemma shiftr_128 (m : Z) : 0 <= m < 8 -> Z.shiftr 128 m = 2 ^ (7 - m).
Proof.
  intros Hm. assert (m = 0 \/ m = 1 \/ m = 2 \/ m = 3 \/ m = 4 \/ m = 5 \/ m = 6 \/ m = 7)
    as H by lia.
  repeat destruct H as [-> | H]; try reflexivity. subst. reflexivity.
Qed.

(** Bit [x] of a packed row: bit [7 - x mod 8] of byte [x / 8]. *)
Definition row_bit (row : list Z) (x : Z) : bool :=
  Z.testbit (default 0 (row !! Z.to_nat (x / 8))) (7 - x mod 8).

Definition bytes_ok (row : list Z) : Prop := forall j b, row !! j = Some b -> 0 <= b < 256.

Lemma row_set_bit (row : list Z) (x : Z) :
  0 <= x -> (Z.to_nat (x / 8) < length row)%nat -> bytes_ok row ->
  let j := Z.to_nat (Z.quot x 8) in
  let row' := <[j := Z.lor (default 0 (row !! j)) (Z.shiftr 128 (Z.rem x 8))]> row in
  length row' = length row /\ bytes_ok row' /\
  forall x', 0 <= x' -> row_bit row' x' = row_bit row x' || Z.eqb x' x.
Proof.
  intros Hx Hlen Hb j row'.
  assert (Hj : j = Z.to_nat (x / 8)) by (unfold j; by rewrite Z.quot_div_nonneg by lia).
  assert (Hm : 0 <= x mod 8 < 8) by (apply Z.mod_pos_bound; lia).
  assert (Hsh : Z.shiftr 128 (Z.rem x 8) = 2 ^ (7 - x mod 8))
    by (rewrite Z.rem_mod_nonneg by lia; by apply shiftr_128).
  destruct (lookup_lt_is_Some_2 row j) as [d Hd]; [lia|].
  pose proof (Hb j d Hd) as Hd8.
  unfold row'. rewrite Hd, Hsh. simpl. split; [by rewrite length_insert|]. split.
  - intros j' b Hb'. apply lookup_insert_Some_cases in Hb' as [[<- <-] | [_ Hb']].
    + apply lor_byte; [done|]. split; [lia|].
      apply (Z.le_lt_trans _ (2 ^ 7)); [apply Z.pow_le_mono_r; lia | reflexivity].
    + by eapply Hb.
  - intros x' Hx'. unfold row_bit.
    assert (Hm' : 0 <= x' mod 8 < 8) by (apply Z.mod_pos_bound; lia).
    destruct (Z.eq_dec (x' / 8) (x / 8)) as [Hq | Hq].
    + rewrite Hq, <- Hj, list_lookup_insert_eq by lia. simpl.
      rewrite Hd. simpl. rewrite Z.lor_spec, Z.pow2_bits_eqb by lia. f_equal.
      pose proof (Z.div_mod x 8 ltac:(lia)). pose proof (Z.div_mod x' 8 ltac:(lia)).
      destruct (Z.eqb_spec (7 - x mod 8) (7 - x' mod 8));
        destruct (Z.eqb_spec x' x); try done; lia.
    + assert (0 <= x / 8) by (apply Z.div_pos; lia).
      assert (0 <= x' / 8) by (apply Z.div_pos; lia).
      rewrite list_lookup_insert_ne by lia.
      replace (x' =? x) with false; [by rewrite orb_false_r|].
      symmetry. apply Z.eqb_neq. intros ->. done.
Qed.

(** One turn of the [x] loop, with the test written out. *)
Lemma row_loop_S (c1 ci : float) (k : nat) (x : Z) (row : list Z) :
  row_loop (S k) x c1 ci row =
  row_loop k (x + 1) c1 ci
    (if mb_inside MAX_ITER (float_of_int x * c1 - 1.5)%float ci
          (float_of_int x * c1 - 1.5)%float ci then
       <[Z.to_nat (Z.quot x 8) := Z.lor (default 0 (row !! Z.to_nat (Z.quot x 8)))
                                     (Z.shiftr 128 (Z.rem x 8))]> row
     else row).
Proof. unfold row_loop at 1. fold row_loop. reflexivity. Qed.

Lemma row_bit_zeros (n : nat) (x : Z) : row_bit (replicate n 0) x = false.
Proof.
  unfold row_bit. destruct (replicate n 0 !! Z.to_nat (x / 8)) as [b|] eqn:E;
    cbn [default]; [|apply Z.bits_0].
  apply lookup_replicate in E as [-> _]. apply Z.bits_0.
Qed.

Lemma row_loop_bits (c1 ci : float) (L : nat) (k : nat) :
  forall x row, 0 <= x -> x + Z.of_nat k <= 8 * Z.of_nat L ->
  length row = L -> bytes_ok row ->
  length (row_loop k x c1 ci row) = L /\ bytes_ok (row_loop k x c1 ci row) /\
  forall x', 0 <= x' ->
    row_bit (row_loop k x c1 ci row) x' =
    row_bit row x' ||
    ((x <=? x') && (x' <? x + Z.of_nat k) &&
     mb_inside MAX_ITER (float_of_int x' * c1 - 1.5)%float ci
       (float_of_int x' * c1 - 1.5)%float ci).
Proof.
  induction k as [|k IH]; intros x row Hx Hk Hlen Hb.
  - cbn [row_loop]. split; [exact Hlen|]. split; [exact Hb|]. intros x' Hx'.
    destruct (Z.leb_spec x x'), (Z.ltb_spec x' (x + Z.of_nat 0)); cbn [andb orb];
      try lia; rewrite ?orb_false_r; reflexivity.
  - rewrite row_loop_S.
    destruct (mb_inside MAX_ITER (float_of_int x * c1 - 1.5)%float ci
                (float_of_int x * c1 - 1.5)%float ci) eqn:Eg.
    + assert (Hj : (Z.to_nat (x / 8) < length row)%nat).
      { rewrite Hlen. apply Nat2Z.inj_lt. rewrite Z2Nat.id by (apply Z.div_pos; lia).
        apply Z.div_lt_upper_bound; lia. }
      destruct (row_set_bit row x Hx Hj Hb) as (Hl1 & Hb1 & Hbit1).
      destruct (IH (x + 1) _ ltac:(lia) ltac:(lia) (eq_trans Hl1 Hlen) Hb1)
        as (Hl2 & Hb2 & Hbit2).
      split; [exact Hl2|]. split; [exact Hb2|]. intros x' Hx'.
      rewrite Hbit2, Hbit1 by lia.
      destruct (Z.eqb_spec x' x) as [-> | Hne].
      * rewrite Eg. replace (x <=? x) with true by (symmetry; apply Z.leb_le; lia).
        replace (x <? x + Z.of_nat (S k)) with true by (symmetry; apply Z.ltb_lt; lia).
        rewrite !orb_true_r; reflexivity.
      * destruct (Z.leb_spec (x + 1) x'), (Z.leb_spec x x'),
          (Z.ltb_spec x' (x + 1 + Z.of_nat k)), (Z.ltb_spec x' (x + Z.of_nat (S k)));
          cbn [andb orb]; try lia; rewrite ?orb_false_r; reflexivity.
    + destruct (IH (x + 1) row ltac:(lia) ltac:(lia) Hlen Hb) as (Hl2 & Hb2 & Hbit2).
      split; [exact Hl2|]. split; [exact Hb2|]. intros x' Hx'.
      rewrite Hbit2 by lia.
      destruct (Z.eqb_spec x' x) as [-> | Hne].
      * rewrite Eg, !andb_false_r, !orb_false_r. reflexivity.
      * destruct (Z.leb_spec (x + 1) x'), (Z.leb_spec x x'),
          (Z.ltb_spec x' (x + 1 + Z.of_nat k)), (Z.ltb_spec x' (x + Z.of_nat (S k)));
          cbn [andb orb]; try lia; rewrite ?orb_false_r; reflexivity.
Qed.

(** [computeRow] and [pixel_inside] with their [let]s expanded. *)
Lemma computeRow_unfold (y : Z) :
  computeRow y =
  row_loop (Z.to_nat SIZE) 0 (2.0 / float_of_int SIZE)%float
    (float_of_int y * (2.0 / float_of_int SIZE) - 1.0)%float
    (replicate (Z.to_nat (Z.quot (SIZE + 7) 8)) 0).
Proof. reflexivity. Qed.

Lemma pixel_inside_unfold (x y : Z) :
  pixel_inside x y =
  mb_inside MAX_ITER (float_of_int x * (2.0 / float_of_int SIZE) - 1.5)%float
    (float_of_int y * (2.0 / float_of_int SIZE) - 1.0)%float
    (float_of_int x * (2.0 / float_of_int SIZE) - 1.5)%float
    (float_of_int y * (2.0 / float_of_int SIZE) - 1.0)%float.
Proof. reflexivity. Qed.

(** [computeRow y] is a row of [(SIZE + 7) / 8 = 500] bytes, every write
    [row[x/8]] is in bounds, and bit [7 - x mod 8] of byte [x / 8] is set
    exactly when pixel [(x, y)] stays inside for [MAX_ITER] iterations,
    for every [0 <= x < SIZE]. *)
Theorem computeRow_bits (y : Z) :
  length (computeRow y) = Z.to_nat ((SIZE + 7) / 8) /\
  (forall j b, computeRow y !! j = Some b -> 0 <= b < 256) /\
  (forall x, 0 <= x < SIZE -> row_bit (computeRow y) x = pixel_inside x y).
Proof.
  rewrite !computeRow_unfold.
  destruct (row_loop_bits (2.0 / float_of_int SIZE)%float
              (float_of_int y * (2.0 / float_of_int SIZE) - 1.0)%float 500
              (Z.to_nat SIZE) 0 (replicate (Z.to_nat (Z.quot (SIZE + 7) 8)) 0))
    as (H1 & H2 & H3); [lia | unfold SIZE; lia | rewrite length_replicate; reflexivity | |].
  { intros j b Hj. apply lookup_replicate in Hj as [-> _]. lia. }
  split; [exact H1|]. split; [exact H2|].
  intros x Hx. rewrite H3 by lia.
  rewrite row_bit_zeros.
  replace (0 <=? x) with true by (symmetry; apply Z.leb_le; lia).
  replace (x <? 0 + Z.of_nat (Z.to_nat SIZE)) with true
    by (symmetry; apply Z.ltb_lt; unfold SIZE in *; lia).
  rewrite orb_false_l, !andb_true_l, pixel_inside_unfold. reflexivity.
Qed.

(* ----------------------------------------------------------------- *)
(** ** runLoadTest: requests, termination and progress *)

Definition is_lgot (w : lt_worker) : bool :=
  match w with L_Got => true | _ => false end.
Definition is_lexit (w : lt_worker) : bool :=
  match w with L_Exit => true | _ => false end.
Definition is_llive (w : lt_worker) : bool :=
  match w with L_Exit => false | _ => true end.

(** After [close(work)]: every token is in the channel, held by a worker
    or already turned into a request; a worker exits only on the empty
    channel, which is never refilled. *)
Definition lt_pool (N b : Z) (c : bool) (wg : Z) (ws : list lt_worker) (n : Z) : Prop :=
  0 <= N /\ c = true /\ 0 <= b /\
  wg = Z.of_nat (length ws) - Z.of_nat (cnt is_lexit ws) /\
  b + Z.of_nat (cnt is_lgot ws) + (n - 10) = N /\
  (cnt is_lexit ws <> 0%nat -> b = 0) /\
  (ws = [] -> n = 10).

Definition lt_inv (numRequests concurrency : Z) (s : lt_state) : Prop :=
  let '(mkLT pc b c wg ws n) := s in
  match pc with
  | LT_Warm i => 0 <= i <= 10 /\ n = i /\ b = 0 /\ c = false /\ wg = 0 /\ ws = []
  | LT_Panic => numRequests < 0 /\ n = 10 /\ c = false /\ wg = 0 /\ ws = []
  | LT_Fill i =>
      0 <= i <= numRequests /\ b = i /\ n = 10 /\ c = false /\ wg = 0 /\ ws = []
  | LT_Close =>
      0 <= numRequests /\ b = numRequests /\ n = 10 /\ c = false /\ wg = 0 /\ ws = []
  | LT_Spawn i =>
      0 <= i /\ (i <= concurrency \/ i = 0) /\ length ws = Z.to_nat i /\
      lt_pool numRequests b c wg ws n
  | LT_Wait => length ws = Z.to_nat concurrency /\ lt_pool numRequests b c wg ws n
  | LT_Ret =>
      length ws = Z.to_nat concurrency /\ wg = 0 /\ lt_pool numRequests b c wg ws n
  end.

Lemma lookup_not_nil {A} (l : list A) (j : nat) (x : A) : l !! j = Some x -> l <> [].
Proof. intros Hj ->. by rewrite lookup_nil in Hj. Qed.

Lemma insert_not_nil {A} (l : list A) (j : nat) (x y : A) :
  l !! j = Some x -> <[j := y]> l <> [].
Proof.
  intros Hj Hnil. apply (lookup_not_nil l j x Hj). apply nil_length_inv.
  rewrite <- (length_insert l j y), Hnil. reflexivity.
Qed.

Ltac lt_cnt Hj y :=
  pose proof (cnt_insert is_lgot _ _ _ y Hj);
  pose proof (cnt_insert is_lexit _ _ _ y Hj);
  pose proof (cnt_insert is_llive _ _ _ y Hj);
  pose proof (insert_not_nil _ _ _ y Hj);
  cbn [is_lgot is_lexit is_llive] in *.

(** The three worker steps keep the pool invariant. *)
Lemma lt_pool_recv (N b : Z) (c : bool) (wg : Z) (ws : list lt_worker) (n : Z) (j : nat) :
  lt_pool N b c wg ws n -> ws !! j = Some L_Recv -> 0 < b ->
  lt_pool N (b - 1) c wg (<[j := L_Got]> ws) n.
Proof.
  intros (H1 & H2 & H3 & H4 & H5 & H6 & H7) Hj Hb. lt_cnt Hj L_Got. unfold lt_pool. rewrite length_insert.
  repeat split; try done; try lia.
Qed.

Lemma lt_pool_exit (N : Z) (wg : Z) (ws : list lt_worker) (n : Z) (j : nat) :
  lt_pool N 0 true wg ws n -> ws !! j = Some L_Recv ->
  lt_pool N 0 true (wg - 1) (<[j := L_Exit]> ws) n.
Proof.
  intros (H1 & H2 & H3 & H4 & H5 & H6 & H7) Hj. lt_cnt Hj L_Exit. unfold lt_pool. rewrite length_insert.
  repeat split; try done; try lia.
Qed.

Lemma lt_pool_request (N b : Z) (c : bool) (wg : Z) (ws : list lt_worker) (n : Z) (j : nat) :
  lt_pool N b c wg ws n -> ws !! j = Some L_Got ->
  lt_pool N b c wg (<[j := L_Recv]> ws) (n + 1).
Proof.
  intros (H1 & H2 & H3 & H4 & H5 & H6 & H7) Hj. lt_cnt Hj L_Recv. unfold lt_pool. rewrite length_insert.
  repeat split; try done; try lia.
Qed.

Lemma lt_inv_step (numRequests concurrency : Z) (s s' : lt_state) :
  lt_inv numRequests concurrency s -> lt_step numRequests concurrency s s' ->
  lt_inv numRequests concurrency s'.
Proof.
  intros Hinv Hs.
  destruct Hs as [i b c wg ws n Hi | i b c wg ws n Hi Hn | i b c wg ws n Hi Hn
                 | i b c wg ws n Hi Hb | i b c wg ws n Hi | b wg ws n
                 | i b c wg ws n Hi | i b c wg ws n Hi | b c wg ws n Hwg
                 | pc j b c wg ws n Hj Hb | pc j wg ws n Hj | pc j b c wg ws n Hj];
    cbn [lt_inv] in *.
  - destruct Hinv as (H1 & -> & H3). repeat split; try tauto; lia.
  - destruct Hinv as (H1 & -> & H3). assert (i = 10) by lia. subst.
    repeat split; try tauto; lia.
  - destruct Hinv as (H1 & -> & H3). assert (i = 10) by lia. subst.
    repeat split; try tauto; lia.
  - destruct Hinv as (H1 & -> & H3). repeat split; try tauto; lia.
  - destruct Hinv as (H1 & -> & H3). assert (i = numRequests) by lia. subst.
    repeat split; try tauto; lia.
  - destruct Hinv as (H1 & -> & -> & _ & -> & ->).
    repeat split; simpl; try done; lia.
  - unfold lt_pool in *.
    destruct Hinv as (H1 & H2 & H3 & H4 & H5 & H6 & H7 & H8 & H9 & H10).
    rewrite length_app, !cnt_app. simpl. rewrite H3.
    repeat split; try done; try lia.
    + intros Hnil. exfalso. by apply (app_cons_not_nil ws [] L_Recv).
  - destruct Hinv as (H1 & H2 & H3 & H4). split; [|exact H4].
    rewrite H3. lia.
  - destruct Hinv as (H1 & H2). tauto.
  - destruct pc as [i | i | | i | | |];
      try (destruct Hinv as (_ & _ & _ & _ & _ & ->); by rewrite lookup_nil in Hj).
    + destruct Hinv as (H1 & H2 & H3 & H4). rewrite length_insert.
      split; [done|]. split; [done|]. split; [done|]. by apply lt_pool_recv.
    + destruct Hinv as (H1 & H4). rewrite length_insert.
      split; [done|]. by apply lt_pool_recv.
    + destruct Hinv as (H1 & H2 & H4). rewrite length_insert.
      split; [done|]. split; [done|]. by apply lt_pool_recv.
    + destruct Hinv as (_ & _ & _ & _ & ->). by rewrite lookup_nil in Hj.
  - destruct pc as [i | i | | i | | |];
      try (destruct Hinv as (_ & _ & _ & _ & _ & ->); by rewrite lookup_nil in Hj).
    + destruct Hinv as (H1 & H2 & H3 & H4). rewrite length_insert.
      split; [done|]. split; [done|]. split; [done|]. by apply lt_pool_exit.
    + destruct Hinv as (H1 & H4). rewrite length_insert.
      split; [done|]. by apply lt_pool_exit.
    + destruct Hinv as (H1 & H2 & _ & _ & _ & H5 & _). exfalso.
      pose proof (cnt_le is_lexit ws).
      assert (Hc : cnt is_lexit ws = length ws) by lia.
      by pose proof (cnt_full _ _ Hc j _ Hj).
    + destruct Hinv as (_ & _ & _ & _ & ->). by rewrite lookup_nil in Hj.
  - destruct pc as [i | i | | i | | |];
      try (destruct Hinv as (_ & _ & _ & _ & _ & ->); by rewrite lookup_nil in Hj).
    + destruct Hinv as (H1 & H2 & H3 & H4). rewrite length_insert.
      split; [done|]. split; [done|]. split; [done|]. by apply lt_pool_request.
    + destruct Hinv as (H1 & H4). rewrite length_insert.
      split; [done|]. by apply lt_pool_request.
    + destruct Hinv as (H1 & H2 & H4). rewrite length_insert.
      split; [done|]. split; [done|]. by apply lt_pool_request.
    + destruct Hinv as (_ & _ & _ & _ & ->). by rewrite lookup_nil in Hj.
Qed.

Lemma lt_inv_reach (numRequests concurrency : Z) (s : lt_state) :
  rtc (lt_step numRequests concurrency) lt_init s -> lt_inv numRequests concurrency s.
Proof.
  enough (Hgen : forall s0 s, rtc (lt_step numRequests concurrency) s0 s ->
                 lt_inv numRequests concurrency s0 -> lt_inv numRequests concurrency s).
  { intros Hr. apply (Hgen _ _ Hr). cbn. repeat split; lia. }
  clear s. induction 1 as [s | s1 s2 s3 Hs _ IH]; [done|].
  intros Hinv. apply IH. by eapply lt_inv_step.
Qed.

(** Steps left before the main goroutine returns or panics and the
    workers finish. *)
Definition lt_pcw (numRequests concurrency : Z) (pc : lt_pc) : nat :=
  match pc with
  | LT_Warm i =>
      Z.to_nat (10 - i) + 3 * Z.to_nat numRequests + 2 * Z.to_nat concurrency + 5
  | LT_Fill i => 3 * Z.to_nat (numRequests - i) + 2 * Z.to_nat concurrency + 4
  | LT_Close => 2 * Z.to_nat concurrency + 3
  | LT_Spawn i => 2 * Z.to_nat (concurrency - i) + 2
  | LT_Wait => 1
  | LT_Ret | LT_Panic => 0
  end.

Definition lt_measure (numRequests concurrency : Z) (s : lt_state) : nat :=
  lt_pcw numRequests concurrency (lt_pc_of s) + 2 * Z.to_nat (lt_buf s) +
  cnt is_lgot (lt_ws s) + cnt is_llive (lt_ws s).

Lemma lt_measure_step (numRequests concurrency : Z) (s s' : lt_state) :
  lt_step numRequests concurrency s s' ->
  (lt_measure numRequests concurrency s' < lt_measure numRequests concurrency s)%nat.
Proof.
  intros Hs. unfold lt_measure.
  destruct Hs as [i b c wg ws n Hi | i b c wg ws n Hi Hn | i b c wg ws n Hi Hn
                 | i b c wg ws n Hi Hb | i b c wg ws n Hi | b wg ws n
                 | i b c wg ws n Hi | i b c wg ws n Hi | b c wg ws n Hwg
                 | pc j b c wg ws n Hj Hb | pc j wg ws n Hj | pc j b c wg ws n Hj];
    cbn [lt_pc_of lt_buf lt_ws lt_pcw] in *; try lia.
  - rewrite !cnt_app. simpl. lia.
  - lt_cnt Hj L_Got. lia.
  - lt_cnt Hj L_Exit. lia.
  - lt_cnt Hj L_Recv. lia.
Qed.

Lemma lt_sn_measure (numRequests concurrency : Z) (m : nat) :
  forall s, (lt_measure numRequests concurrency s < m)%nat ->
  sn (lt_step numRequests concurrency) s.
Proof.
  induction m as [|m IH]; intros s Hm; [lia|].
  constructor. intros s' Hs. unfold flip in Hs. apply IH.
  pose proof (lt_measure_step _ _ _ _ Hs). lia.
Qed.

(** Once [runLoadTest] is past [wg.Wait()], every worker has left its
    [for range work] loop, and [makeRequest] has been called [10] times
    for the warm-up plus once per token: [10 + numRequests] times with at
    least one worker. With [concurrency <= 0] no worker is started, the
    [numRequests] tokens stay in the channel and only the warm-up
    requests are made. *)
Theorem runLoadTest_requests (numRequests concurrency : Z) (s : lt_state) :
  rtc (lt_step numRequests concurrency) lt_init s -> lt_pc_of s = LT_Ret ->
  (forall j w, lt_ws s !! j = Some w -> w = L_Exit) /\
  (1 <= concurrency -> lt_reqs s = 10 + numRequests /\ lt_buf s = 0) /\
  (concurrency <= 0 -> lt_reqs s = 10 /\ lt_buf s = numRequests).
Proof.
  intros Hr Hret. pose proof (lt_inv_reach _ _ _ Hr) as Hinv.
  destruct s as [pc b c wg ws n]. cbn [lt_pc_of lt_ws lt_reqs lt_buf] in *. subst pc.
  destruct Hinv as (Hlen & -> & HN & Hc & Hb & Hwg & Hsum & Hex & Hnil).
  pose proof (cnt_le is_lexit ws).
  assert (Hall : cnt is_lexit ws = length ws) by lia.
  pose proof (cnt_two is_lgot is_lexit ws ltac:(by intros [] ?)) as Htwo.
  split; [|split].
  - intros j w Hj. pose proof (cnt_full _ _ Hall j w Hj). by destruct w.
  - intros Hc1. assert (b = 0) by (apply Hex; lia). lia.
  - intros Hc0. assert (ws = []) as Hws by (apply nil_length_inv; lia).
    specialize (Hnil Hws). subst ws. simpl in *. lia.
Qed.

Lemma runLoadTest_requests_witness :
  let s := mkLT LT_Ret 0 true 0 [L_Exit] 11 in
  (rtc (lt_step 1 1) lt_init s /\ lt_pc_of s = LT_Ret) /\
  ((forall j w, lt_ws s !! j = Some w -> w = L_Exit) /\
   (1 <= 1 -> lt_reqs s = 10 + 1 /\ lt_buf s = 0) /\
   (1 <= 0 -> lt_reqs s = 10 /\ lt_buf s = 1)).
Proof.
  intros s.
  assert (Hr : rtc (lt_step 1 1) lt_init s).
  { unfold lt_init, s.
    do 10 (eapply rtc_l; [apply lt_warm; lia|]).
    eapply rtc_l; [apply lt_make; lia|].
    eapply rtc_l; [apply lt_fill; lia|].
    eapply rtc_l; [apply lt_fill_exit; lia|].
    eapply rtc_l; [apply lt_close|].
    eapply rtc_l; [apply lt_spawn; lia|].
    eapply rtc_l; [apply lt_spawn_exit; lia|].
    eapply rtc_l; [apply (lt_recv _ _ _ 0%nat); [reflexivity | lia]|].
    eapply rtc_l; [apply (lt_request _ _ _ 0%nat); reflexivity|].
    eapply rtc_l; [apply (lt_recv_closed _ _ _ 0%nat); reflexivity|].
    eapply rtc_l; [apply lt_wait; reflexivity|].
    apply rtc_refl. }
  split; [split; [exact Hr | reflexivity]|].
  exact (runLoadTest_requests 1 1 s Hr eq_refl).
Defined.

(** With [numRequests < 0], [make(chan struct{}, numRequests)] panics:
    [runLoadTest] never returns, no worker is started and only the ten
    warm-up requests are made; every interleaving that cannot be extended
    ends in that panic, after the ten warm-up requests. *)
Theorem runLoadTest_negative_panics (numRequests concurrency : Z) (s : lt_state) :
  numRequests < 0 -> rtc (lt_step numRequests concurrency) lt_init s ->
  lt_pc_of s <> LT_Ret /\ lt_ws s = [] /\ lt_reqs s <= 10 /\
  ((forall s', ~ lt_step numRequests concurrency s s') ->
   lt_pc_of s = LT_Panic /\ lt_reqs s = 10).
Proof.
  intros Hn Hr. pose proof (lt_inv_reach _ _ _ Hr) as Hinv.
  destruct s as [pc b c wg ws n]. cbn [lt_pc_of lt_ws lt_reqs] in *.
  destruct pc as [i | i | | i | | |]; cbn [lt_inv] in Hinv.
  - destruct Hinv as (H1 & -> & -> & -> & -> & ->).
    split; [discriminate|]. split; [done|]. split; [lia|].
    intros Hstuck. exfalso. destruct (Z_lt_ge_dec i 10).
    + eapply Hstuck. by apply lt_warm.
    + eapply Hstuck. apply lt_make_panic; lia.
  - lia.
  - lia.
  - destruct Hinv as (_ & _ & _ & [H _]). lia.
  - destruct Hinv as (_ & [H _]). lia.
  - destruct Hinv as (_ & _ & [H _]). lia.
  - destruct Hinv as (_ & -> & _ & _ & ->).
    split; [discriminate|]. split; [done|]. split; [lia|]. done.
Qed.

Lemma runLoadTest_negative_panics_witness :
  let s := mkLT LT_Panic 0 false 0 [] 10 in
  (-1 < 0 /\ rtc (lt_step (-1) 4) lt_init s) /\
  (lt_pc_of s <> LT_Ret /\ lt_ws s = [] /\ lt_reqs s <= 10).
Proof.
  intros s.
  assert (Hr : rtc (lt_step (-1) 4) lt_init s).
  { unfold lt_init, s.
    do 10 (eapply rtc_l; [apply lt_warm; lia|]).
    eapply rtc_l; [apply lt_make_panic; lia|].
    apply rtc_refl. }
  split; [split; [lia | exact Hr]|].
  destruct (runLoadTest_negative_panics (-1) 4 s ltac:(lia) Hr) as (H1 & H2 & H3 & _).
  split; [exact H1 | split; [exact H2 | exact H3]].
Defined.

(** Every interleaving of [runLoadTest(numRequests, concurrency)] is
    finite, whatever the two arguments. *)
Theorem runLoadTest_terminates (numRequests concurrency : Z) :
  sn (lt_step numRequests concurrency) lt_init.
Proof.
  apply (lt_sn_measure _ _ (S (lt_measure numRequests concurrency lt_init))). lia.
Qed.

(** [runLoadTest] never blocks: filling [work] never finds the buffer
    full, and while the main goroutine is neither returned nor panicked,
    some goroutine can take a step. *)
Theorem runLoadTest_progress (numRequests concurrency : Z) (s : lt_state) :
  rtc (lt_step numRequests concurrency) lt_init s ->
  lt_pc_of s <> LT_Ret -> lt_pc_of s <> LT_Panic ->
  exists s', lt_step numRequests concurrency s s'.
Proof.
  intros Hr Hret Hpan. pose proof (lt_inv_reach _ _ _ Hr) as Hinv.
  destruct s as [pc b c wg ws n]. cbn [lt_pc_of] in *.
  destruct pc as [i | i | | i | | |]; cbn [lt_inv] in Hinv; try done.
  - destruct (Z_lt_ge_dec i 10).
    + eexists. by apply lt_warm.
    + destruct (Z_le_gt_dec 0 numRequests).
      * eexists. apply lt_make; lia.
      * eexists. apply lt_make_panic; lia.
  - destruct Hinv as (H1 & -> & _). destruct (Z_lt_ge_dec i numRequests).
    + eexists. apply lt_fill; lia.
    + eexists. apply lt_fill_exit; lia.
  - destruct Hinv as (_ & _ & _ & -> & _). eexists. apply lt_close.
  - destruct (Z_lt_ge_dec i concurrency).
    + eexists. by apply lt_spawn.
    + eexists. apply lt_spawn_exit; lia.
  - destruct Hinv as (Hlen & HN & Hc & Hb & Hwg & _).
    destruct (Z.eq_dec wg 0) as [-> | Hwg0].
    + eexists. by apply lt_wait.
    + destruct (cnt_lt_exists is_lexit ws) as (j & w & Hj & Hw);
        [pose proof (cnt_le is_lexit ws); lia|].
      destruct w; try done.
      * destruct (Z.eq_dec b 0) as [-> | Hb0].
        -- subst c. eexists. by eapply lt_recv_closed.
        -- eexists. eapply lt_recv; [exact Hj | lia].
      * eexists. by eapply lt_request.
Qed.

Lemma runLoadTest_progress_witness :
  (rtc (lt_step 3 2) lt_init lt_init /\ lt_pc_of lt_init <> LT_Ret /\
   lt_pc_of lt_init <> LT_Panic) /\
  exists s', lt_step 3 2 lt_init s'.
Proof.
  assert (Hr : rtc (lt_step 3 2) lt_init lt_init) by apply rtc_refl.
  split; [split; [exact Hr | split; discriminate]|].
  exact (runLoadTest_progress 3 2 lt_init Hr ltac:(discriminate) ltac:(discriminate)).
Defined.

(* ----------------------------------------------------------------- *)
(** ** computeFibonacci on a non-positive argument *)

(** For [n <= 0] the loop [for i := 0; i < n; i++] does not run and
    [computeFibonacci n] returns its initial [a = 0]. *)
Theorem computeFibonacci_nonpositive (n : Z) :
  n <= 0 -> computeFibonacci n = 0.
Proof.
  intros Hn. unfold computeFibonacci. by replace (Z.to_nat n) with 0%nat by lia.
Qed.

Lemma computeFibonacci_nonpositive_witness :
  -5 <= 0 /\ computeFibonacci (-5) = 0.
Proof. split; [lia | apply computeFibonacci_nonpositive; lia]. Defined.
